(** * codex-colab: the Gemini key pool and the four-agent note pipeline

    A shallow embedding of [api_manager.py] (class [GeminiAPIManager],
    class [EnhancedAgent]) and of [agents_enhanced.py] (the four agents and
    [process_content_with_enhanced_agents]), followed by the properties of
    the specification that were checked against it.

    Python values are modelled as follows.
    - [str] is a list of Unicode code points, so that [len], slicing and
      match offsets count characters as the interpreter does.
    - [int] is [Z].
    - a [set] of strings is a [gset], a [dict] from strings is a [gmap].
    - an exception is a constructor of [exn]; code that may raise returns
      a [result].
    - the remote generation service is an oracle [remote]; every request
      sent to it is appended to a log kept next to the manager. *)

From Stdlib Require Import ZArith NArith Lia String Ascii.
From stdpp Require Import base decidable option list gmap sets.

Local Open Scope N_scope.

(** ** Python strings *)

Module PyStr.

Abbreviation char := N (only parsing).
Abbreviation str := (list N) (only parsing).

(** Decoding of a UTF-8 source literal into code points. *)
Fixpoint utf8 (bs : list N) : str :=
  match bs with
  | [] => []
  | b :: r =>
      if b <? 128 then b :: utf8 r
      else match r with
           | [] => [b]
           | b1 :: r1 =>
               if b <? 224 then ((b - 192) * 64 + (b1 - 128)) :: utf8 r1
               else match r1 with
                    | [] => [b]
                    | b2 :: r2 =>
                        if b <? 240
                        then ((b - 224) * 4096 + (b1 - 128) * 64 + (b2 - 128)) :: utf8 r2
                        else match r2 with
                             | [] => [b]
                             | b3 :: r3 =>
                                 ((b - 240) * 262144 + (b1 - 128) * 4096
                                  + (b2 - 128) * 64 + (b3 - 128)) :: utf8 r3
                             end
                    end
           end
  end.

Fixpoint bytes (s : string) : list N :=
  match s with
  | EmptyString => []
  | String a r => N_of_ascii a :: bytes r
  end.

Definition py (s : string) : str := utf8 (bytes s).
Arguments py s%_string.

Definition nl : char := 10.

(** [str.isspace] for one character, which is also the class [\s] of
    [re] on [str] patterns. *)
Definition isspace (c : char) : bool :=
  ((9 <=? c) && (c <=? 13)) || ((28 <=? c) && (c <=? 32))
  || (c =? 133) || (c =? 160) || (c =? 5760)
  || ((8192 <=? c) && (c <=? 8202))
  || (c =? 8232) || (c =? 8233) || (c =? 8239) || (c =? 8287) || (c =? 12288).

(** The decimal digits (general category Nd), the class [\d] of [re]:
    each entry is the first code point of a run and the number of
    digits in it. *)
Definition digit_runs : list (N * N) :=
  [(48, 10); (1632, 10); (1776, 10); (1984, 10); (2406, 10); (2534, 10);
   (2662, 10); (2790, 10); (2918, 10); (3046, 10); (3174, 10); (3302, 10);
   (3430, 10); (3558, 10); (3664, 10); (3792, 10); (3872, 10); (4160, 10);
   (4240, 10); (6112, 10); (6160, 10); (6470, 10); (6608, 10); (6784, 10);
   (6800, 10); (6992, 10); (7088, 10); (7232, 10); (7248, 10); (42528, 10);
   (43216, 10); (43264, 10); (43472, 10); (43504, 10); (43600, 10);
   (44016, 10); (65296, 10); (66720, 10); (68912, 10); (69734, 10);
   (69872, 10); (69942, 10); (70096, 10); (70384, 10); (70736, 10);
   (70864, 10); (71248, 10); (71360, 10); (71472, 10); (71904, 10);
   (72016, 10); (72784, 10); (73040, 10); (73120, 10); (92768, 10);
   (92864, 10); (93008, 10); (120782, 50); (123200, 10); (123632, 10);
   (125264, 10); (130032, 10)].

Definition isdigit (c : char) : bool :=
  existsb (fun r => (fst r <=? c) && (c <? fst r + snd r)) digit_runs.

(** Simple lower-casing of one character, as [re] applies it under
    [(?i)]. The program only ever compares the result with characters
    below U+0100, and on those comparisons this table decides as the
    interpreter's does: it is the full mapping below U+0100 together
    with every character above whose lower case lies below U+0100. *)
Definition tolower (c : char) : char :=
  if (65 <=? c) && (c <=? 90) then c + 32
  else if (192 <=? c) && (c <=? 222) && negb (c =? 215) then c + 32
  else if c =? 304 then 105
  else if c =? 376 then 255
  else if c =? 7838 then 223
  else if c =? 8490 then 107
  else if c =? 8491 then 229
  else c.

(** [str.lower]: as [tolower], except that U+0130 becomes two
    characters. *)
Definition lower (s : str) : str :=
  flat_map (fun c => if c =? 304 then [105; 775] else [tolower c]) s.

Definition eqb (a b : str) : bool := bool_decide (a = b).

(** [s.startswith(p)] *)
Fixpoint startswith (s p : str) {struct p} : bool :=
  match p, s with
  | [], _ => true
  | _ :: _, [] => false
  | y :: p', x :: s' => (x =? y) && startswith s' p'
  end.

(** [p in s] *)
Fixpoint contains (p s : str) : bool :=
  startswith s p || match s with [] => false | _ :: s' => contains p s' end.

(** [s.lstrip()], [s.rstrip()], [s.strip()] *)
Fixpoint lstrip (s : str) : str :=
  match s with
  | [] => []
  | x :: s' => if isspace x then lstrip s' else s
  end.

Definition rstrip (s : str) : str := rev (lstrip (rev s)).

Definition strip (s : str) : str := rstrip (lstrip s).

(** Truth value of a string: [if s:] *)
Definition truthy (s : str) : bool :=
  match s with [] => false | _ => true end.

(** [s.split(sep)] for a separator of one character. *)
Fixpoint split (sep : char) (s : str) : list str :=
  match s with
  | [] => [[]]
  | x :: s' =>
      match split sep s' with
      | [] => [[]]
      | w :: ws => if x =? sep then [] :: w :: ws else (x :: w) :: ws
      end
  end.

(** [sep.join(parts)] *)
Fixpoint join (sep : str) (parts : list str) : str :=
  match parts with
  | [] => []
  | [w] => w
  | w :: ws => w ++ sep ++ join sep ws
  end.

(** [s.replace(old, new)] for a non-empty [old]: occurrences are
    replaced from left to right without overlap. *)
Fixpoint replace_fuel (fuel : nat) (old new s : str) : str :=
  match fuel with
  | O => s
  | S f =>
      match s with
      | [] => []
      | x :: s' =>
          if startswith s old
          then new ++ replace_fuel f old new (drop (length old) s)
          else x :: replace_fuel f old new s'
      end
  end.

Definition replace (old new s : str) : str :=
  replace_fuel (S (length s)) old new s.

End PyStr.

(** ** The fragment of [re] the agents use

    A backtracking matcher with the priorities of the interpreter's
    engine: alternatives are tried from left to right, a greedy repetition
    tries one more iteration before it tries to stop, a lazy one the other
    way round. Positions are character offsets into the subject. *)

Module Re.
Import PyStr.

Inductive regex : Type :=
| Eps                                  (* the empty pattern *)
| Chr (p : char -> bool)               (* one character of a class *)
| Seq (r1 r2 : regex)
| Alt (r1 r2 : regex)                  (* r1|r2 *)
| Star (greedy : bool) (r : regex)     (* r* and r*? *)
| Group (n : nat) (r : regex)          (* capturing group number n *)
| Ahead (r : regex)                    (* (?=r) *)
| EndZ                                 (* \Z *)
| Dollar.                              (* $ without re.M *)

Definition spans := gmap nat (nat * nat).

Definition orelse {A} (x y : option A) : option A :=
  match x with Some a => Some a | None => y end.

(** [exec r i s g k]: match [r] against the suffix [s] that starts at
    offset [i], with the groups [g] set so far, and hand the offset,
    suffix and groups reached to the rest of the match [k]. An
    iteration of a repetition that consumes nothing is not followed by
    a further one (no pattern of the program has such an iteration). *)
Fixpoint exec {A} (r : regex) (i : nat) (s : str) (g : spans)
    (k : nat -> str -> spans -> option A) {struct r} : option A :=
  match r with
  | Eps => k i s g
  | Chr p =>
      match s with
      | x :: s' => if p x then k (S i) s' g else None
      | [] => None
      end
  | Seq r1 r2 => exec r1 i s g (fun i' s' g' => exec r2 i' s' g' k)
  | Alt r1 r2 => orelse (exec r1 i s g k) (exec r2 i s g k)
  | Star greedy r1 =>
      (fix loop (fuel : nat) (i : nat) (s : str) (g : spans) {struct fuel} : option A :=
         match fuel with
         | O => k i s g
         | S fuel' =>
             let again :=
               exec r1 i s g
                 (fun i' s' g' => if Nat.ltb i i' then loop fuel' i' s' g' else None) in
             if greedy then orelse again (k i s g)
             else orelse (k i s g) again
         end) (S (length s)) i s g
  | Group n r1 => exec r1 i s g (fun i' s' g' => k i' s' (<[n := (i, i')]> g'))
  | Ahead r1 =>
      match exec r1 i s g (fun _ _ g' => Some g') with
      | Some g' => k i s g'
      | None => None
      end
  | EndZ => match s with [] => k i s g | _ :: _ => None end
  | Dollar =>
      match s with
      | [] => k i s g
      | [x] => if x =? nl then k i s g else None
      | _ => None
      end
  end.

(** The loop of a repetition as a function of its own, given the
    matcher [exec_r] of the repeated pattern: what [exec] does on
    [Star greedy r] with [exec_r := exec r]. *)
Section StarLoop.
Context {A : Type}.
Variable exec_r : nat -> str -> spans ->
                  (nat -> str -> spans -> option A) -> option A.
Variable greedy : bool.
Variable k : nat -> str -> spans -> option A.

Fixpoint star_loop (fuel : nat) (i : nat) (s : str) (g : spans)
    {struct fuel} : option A :=
  match fuel with
  | O => k i s g
  | S fuel' =>
      let again :=
        exec_r i s g
          (fun i' s' g' => if Nat.ltb i i' then star_loop fuel' i' s' g' else None) in
      if greedy then orelse again (k i s g)
      else orelse (k i s g) again
  end.
End StarLoop.

(** A match object: [start()], [end()] and the spans of its groups. *)
Record rmatch := Match { m_start : nat; m_end : nat; m_groups : spans }.

Definition slice (text : str) (a b : nat) : str := take (b - a) (drop a text).

(** [m.group(0)] *)
Definition group0 (text : str) (m : rmatch) : str :=
  slice text (m_start m) (m_end m).

(** [m.group(n)] for a group that took part in the match *)
Definition group (text : str) (m : rmatch) (n : nat) : str :=
  match m_groups m !! n with
  | Some (a, b) => slice text a b
  | None => []
  end.

(** The leftmost match that starts at offset [i] or later; [s] is the
    subject from offset [i] on. *)
Fixpoint search_from (r : regex) (i : nat) (s : str) : option rmatch :=
  match exec r i s ∅ (fun e _ g => Some (Match i e g)) with
  | Some m => Some m
  | None =>
      match s with
      | [] => None
      | _ :: s' => search_from r (S i) s'
      end
  end.

(** [re.search(r, text)] *)
Definition search (r : regex) (text : str) : option rmatch :=
  search_from r 0 text.

(** The successive matches, each searched from the end of the one
    before (one character further after an empty match). *)
Fixpoint finditer_from (fuel : nat) (r : regex) (i : nat) (s : str) : list rmatch :=
  match fuel with
  | O => []
  | S fuel' =>
      match search_from r i s with
      | None => []
      | Some m =>
          let rest := drop (m_end m - i) s in
          m :: (if Nat.ltb (m_start m) (m_end m)
                then finditer_from fuel' r (m_end m) rest
                else match rest with
                     | [] => []
                     | _ :: rest' => finditer_from fuel' r (S (m_end m)) rest'
                     end)
      end
  end.

(** [list(re.finditer(r, text))] *)
Definition finditer (r : regex) (text : str) : list rmatch :=
  finditer_from (S (length text)) r 0 text.

Fixpoint sub_pieces (repl : str -> rmatch -> str) (text : str)
    (ms : list rmatch) (i : nat) : str :=
  match ms with
  | [] => drop i text
  | m :: ms' =>
      slice text i (m_start m) ++ repl text m ++ sub_pieces repl text ms' (m_end m)
  end.

(** [re.sub(r, repl, text)] with [repl] a function of the match *)
Definition sub (r : regex) (repl : str -> rmatch -> str) (text : str) : str :=
  sub_pieces repl text (finditer r text) 0.

(** *** Building blocks of the patterns *)

Definition seqs (rs : list regex) : regex := foldr Seq Eps rs.

(** A literal character under [(?i)]: the lower case of the subject
    character is that of the pattern character, or one of the two has
    the same upper case as the other ([i] and dotless i, [s] and long
    s, the micro sign and mu). *)
Definition ci (p c : char) : bool :=
  let lo := tolower p in
  let lc := tolower c in
  (lc =? lo) || ((lo =? 105) && (lc =? 305)) || ((lo =? 115) && (lc =? 383))
  || ((lo =? 181) && (lc =? 956)).

(** A literal text, and a literal text under [(?i)] *)
Definition lit (s : str) : regex := seqs (map (fun p => Chr (N.eqb p)) s).
Definition ilit (s : str) : regex := seqs (map (fun p => Chr (ci p)) s).

Definition any : regex := Chr (fun _ => true).           (* . under re.S *)
Definition notnl : regex := Chr (fun c => negb (c =? nl)). (* . *)
Definition space : regex := Chr isspace.                 (* \s *)
Definition digit : regex := Chr isdigit.                 (* \d *)
Definition colon_or_bang : regex :=                      (* [:!] *)
  Chr (fun c => (c =? 58) || (c =? 33)).
Definition upper_i : regex :=                            (* [A-Z] under (?i) *)
  Chr (fun c => let lc := tolower c in
                ((97 <=? lc) && (lc <=? 122)) || (lc =? 305) || (lc =? 383)).
Definition notdollar : regex := Chr (fun c => negb (c =? 36)). (* [^$] *)

Definition plus (greedy : bool) (r : regex) : regex := Seq r (Star greedy r).

End Re.

(** ** [api_manager.py] *)

Module ApiManager.
Import PyStr.
Local Open Scope Z_scope.

(** The exceptions the two files raise. Every one of them is an
    [Exception], so an [except Exception] clause catches them all. *)
Inductive exn : Type := ValueError | RuntimeError | NameError.

Inductive result (A : Type) : Type :=
| Ok (a : A)
| Raise (e : exn).
Arguments Ok {A} a.
Arguments Raise {A} e.

(** *** class GeminiAPIManager *)

Record GeminiAPIManager : Type := Manager {
  api_keys : list str;
  current_key_index : Z;
  failed_keys : gset str;
  retry_count : gmap str Z;
  max_retries : Z;
  retry_delay : Z
}.

(** [GeminiAPIManager.__init__] *)
Definition __init__ (keys : list str) : result GeminiAPIManager :=
  match keys with
  | [] => Raise ValueError
  | _ :: _ =>
      Ok {| api_keys := keys;
            current_key_index := 0;
            failed_keys := ∅;
            retry_count := ∅;
            max_retries := 3;
            retry_delay := 1 |}
  end.

(** [[key for key in self.api_keys if key not in self.failed_keys]] *)
Definition available_keys (m : GeminiAPIManager) : list str :=
  filter (fun key => key ∉ failed_keys m) (api_keys m).

(** The two [clear()] calls of [get_next_key]. *)
Definition reset (m : GeminiAPIManager) : GeminiAPIManager :=
  {| api_keys := api_keys m;
     current_key_index := current_key_index m;
     failed_keys := ∅;
     retry_count := ∅;
     max_retries := max_retries m;
     retry_delay := retry_delay m |}.

Definition set_index (m : GeminiAPIManager) (i : Z) : GeminiAPIManager :=
  {| api_keys := api_keys m;
     current_key_index := i;
     failed_keys := failed_keys m;
     retry_count := retry_count m;
     max_retries := max_retries m;
     retry_delay := retry_delay m |}.

(** [GeminiAPIManager.get_next_key]. The result [None] is Python's
    [None]; the index [current_key_index % len(available_keys)] lies
    within the list, so the subscript itself cannot fail. *)
Definition get_next_key (m : GeminiAPIManager) : option str * GeminiAPIManager :=
  let '(available, m) :=
    match available_keys m with
    | [] => (api_keys m, reset m)
    | (_ :: _) as available => (available, m)
    end in
  match available with
  | [] => (None, m)
  | _ :: _ =>
      let n := Z.of_nat (length available) in
      (available !! Z.to_nat (current_key_index m `mod` n),
       set_index m ((current_key_index m + 1) `mod` n))
  end.

(** [GeminiAPIManager.mark_key_failed] *)
Definition mark_key_failed (api_key : str) (m : GeminiAPIManager) : GeminiAPIManager :=
  let count := default 0 (retry_count m !! api_key) + 1 in
  {| api_keys := api_keys m;
     current_key_index := current_key_index m;
     failed_keys :=
       if bool_decide (max_retries m ≤ count)
       then failed_keys m ∪ {[api_key]}
       else failed_keys m;
     retry_count := <[api_key := count]> (retry_count m);
     max_retries := max_retries m;
     retry_delay := retry_delay m |}.

(** [GeminiAPIManager.get_status]: the manager is only read, and the
    counters are handed out as a copy. *)
Record status : Type := Status {
  total_keys : Z;
  st_failed_keys : Z;
  st_available_keys : Z;
  st_current_key_index : Z;
  retry_counts : gmap str Z
}.

Definition get_status (m : GeminiAPIManager) : status * GeminiAPIManager :=
  ({| total_keys := Z.of_nat (length (api_keys m));
      st_failed_keys := Z.of_nat (size (failed_keys m));
      st_available_keys :=
        Z.of_nat (length (api_keys m)) - Z.of_nat (size (failed_keys m));
      st_current_key_index := current_key_index m;
      retry_counts := retry_count m |}, m).

(** *** The remote service

    One request is [genai.configure(api_key)], [GenerativeModel(model)]
    and [generate_content(prompt)] followed by reading [response.text]:
    it yields a text or raises. The oracle sees how many requests were
    sent before, so it may answer the same request differently over
    time. *)
Record request : Type := Request {
  rq_key : str;
  rq_model : option str;
  rq_prompt : str
}.

Definition remote : Type := nat -> request -> option str.

(** The manager shared by all agents, and the requests sent so far. *)
Record world : Type := World {
  manager : GeminiAPIManager;
  sent : list request
}.

Definition with_manager (w : world) (m : GeminiAPIManager) : world :=
  {| manager := m; sent := sent w |}.

Definition send (R : remote) (rq : request) (w : world) : option str * world :=
  (R (length (sent w)) rq, {| manager := manager w; sent := sent w ++ [rq] |}).

(** The [for attempt in range(max_attempts)] loop of
    [generate_content_with_fallback], with [n] iterations left. A key
    that is [None] or the empty string is false and leaves the loop. *)
Fixpoint attempts (R : remote) (n : nat) (prompt : str) (model_name : option str)
    (w : world) : option str * world :=
  match n with
  | O => (None, w)
  | S n' =>
      let '(api_key, m) := get_next_key (manager w) in
      let w := with_manager w m in
      match api_key with
      | None => (None, w)
      | Some key =>
          if truthy key then
            match send R (Request key model_name prompt) w with
            | (Some text, w) => (Some text, w)
            | (None, w) =>
                attempts R n' prompt model_name
                  (with_manager w (mark_key_failed key (manager w)))
            end
          else (None, w)
      end
  end.

(** [GeminiAPIManager.generate_content_with_fallback] *)
Definition generate_content_with_fallback (R : remote) (prompt : str)
    (model_name : option str) (max_attempts : option Z) (w : world)
    : option str * world :=
  let max_attempts :=
    match max_attempts with
    | None => Z.of_nat (length (api_keys (manager w)))
    | Some n => n
    end in
  attempts R (Z.to_nat max_attempts) prompt model_name w.

(** [GeminiAPIManager.create_model]: the loop with [n] iterations
    left. The model object is represented by its name. *)
Fixpoint create_model_loop (R : remote) (n : nat) (model_name : option str)
    (w : world) : option (option str) * world :=
  match n with
  | O => (None, w)
  | S n' =>
      let '(api_key, m) := get_next_key (manager w) in
      let w := with_manager w m in
      match api_key with
      | None => (None, w)
      | Some key =>
          if truthy key then
            match send R (Request key model_name (py "Teste")) w with
            | (Some _, w) => (Some model_name, w)
            | (None, w) =>
                create_model_loop R n' model_name
                  (with_manager w (mark_key_failed key (manager w)))
            end
          else (None, w)
      end
  end.

Definition create_model (R : remote) (model_name : option str) (w : world)
    : option (option str) * world :=
  create_model_loop R (S (length (api_keys (manager w)))) model_name w.

(** *** class EnhancedAgent *)

Record EnhancedAgent : Type := Agent {
  name : str;
  prompt : str;
  model_name : option str
}.

(** Computations of the agents: they read and change the shared
    manager, send requests, and return or raise. *)
Definition M (A : Type) : Type := world -> result A * world.

Definition ret {A} (a : A) : M A := fun w => (Ok a, w).

Definition raise {A} (e : exn) : M A := fun w => (Raise e, w).

Definition bind {A B} (c : M A) (f : A -> M B) : M B :=
  fun w =>
    match c w with
    | (Ok a, w') => f a w'
    | (Raise e, w') => (Raise e, w')
    end.

(** [try: c except Exception: h] *)
Definition try_except {A} (c : M A) (h : exn -> M A) : M A :=
  fun w =>
    match c w with
    | (Ok a, w') => (Ok a, w')
    | (Raise e, w') => h e w'
    end.

Definition conteudo_a_ser_processado : str :=
  nl :: nl :: py "Conteúdo a ser processado: ".

(** [EnhancedAgent.process_with_gemini] *)
Definition process_with_gemini (R : remote) (self : EnhancedAgent)
    (content_to_process : str) : M str :=
  fun w =>
    let full_prompt := prompt self ++ conteudo_a_ser_processado ++ content_to_process in
    match generate_content_with_fallback R full_prompt (model_name self) None w with
    | (Some response, w') =>
        if truthy response then (Ok response, w') else (Raise RuntimeError, w')
    | (None, w') => (Raise RuntimeError, w')
    end.

End ApiManager.

Notation "'let*' x ':=' c 'in' k" := (ApiManager.bind c (fun x => k))
  (at level 10, x name, c at level 100, k at level 200).

(** ** [agents_enhanced.py] *)

Module Agents.
Import PyStr Re ApiManager.
Local Open Scope nat_scope.

(** A text written over several source lines. *)
Definition lines (ls : list str) : str := join [nl] ls.

Fixpoint digits (u : Decimal.uint) : str :=
  match u with
  | Decimal.Nil => []
  | Decimal.D0 u => 48%N :: digits u
  | Decimal.D1 u => 49%N :: digits u
  | Decimal.D2 u => 50%N :: digits u
  | Decimal.D3 u => 51%N :: digits u
  | Decimal.D4 u => 52%N :: digits u
  | Decimal.D5 u => 53%N :: digits u
  | Decimal.D6 u => 54%N :: digits u
  | Decimal.D7 u => 55%N :: digits u
  | Decimal.D8 u => 56%N :: digits u
  | Decimal.D9 u => 57%N :: digits u
  end.

(** [str(i)] for a counter [i] *)
Definition str_of_nat (i : nat) : str := digits (Nat.to_uint i).

(** *** Texts of the prompts and requests *)

(** The [prompt] of [TranscriberExtractorAgent] *)
Definition TranscriberExtractorAgent_prompt : str :=
  lines [[];
      py "        Você é o Agente 1: Transcritor/Extrator de Conteúdo. Sua função é realizar a transcrição fiel de áudios/vídeos ou a extração precisa de texto de PDFs/slides. Você não interpreta, resume ou opina, apenas captura a matéria-prima. Sua saída deve manter a fidelidade ao conteúdo original, incluindo questões de revisão e gabaritos.";
      py "        ";
      py "        Instruções específicas:";
      py "        - Mantenha a fidelidade absoluta ao conteúdo original";
      py "        - Não remova informações importantes";
      py "        - Preserve questões, gabaritos e comentários";
      py "        - Identifique e marque claramente bizus e dicas";
      py "        "].

(** The [prompt] of [StructurerVisualizerAgent] *)
Definition StructurerVisualizerAgent_prompt : str :=
  lines [[];
      py "        Você é o Agente 2: Estruturador e Visualizador. Sua função é organizar o conteúdo bruto em uma estrutura lógica de Markdown, aplicando heurísticas de visualização para decidir qual diagrama (Mermaid) é mais apropriado para cada tipo de informação.";
      py "        ";
      py "        Instruções específicas:";
      py "        - Organize o conteúdo em seções claras e hierárquicas";
      py "        - Use formatação Markdown apropriada (títulos, listas, ênfases)";
      py "        - Sugira diagramas Mermaid quando apropriado";
      py "        - Mantenha a legibilidade e navegabilidade";
      py "        - Preserve toda a informação importante";
      py "        "].

(** The [prompt] of [LatexExpertAgent] *)
Definition LatexExpertAgent_prompt : str :=
  lines [[];
      py "        Você é o Agente 3: Especialista em LaTeX. Sua função é auxiliar na geração de código LaTeX para fórmulas e expressões matemáticas, garantindo que a sintaxe esteja correta e seja compatível com o MathJax do Obsidian.";
      py "        ";
      py "        Instruções específicas:";
      py "        - Valide e corrija sintaxe LaTeX";
      py "        - Garanta compatibilidade com MathJax";
      py "        - Use $...$ para fórmulas inline";
      py "        - Use $$...$$ para fórmulas em bloco";
      py "        - Mantenha formatação clara e legível";
      py "        "].

(** The [prompt] of [ObsidianFormatterAgent] *)
Definition ObsidianFormatterAgent_prompt : str :=
  lines [[];
      py "        Você é o Agente 4: Formatador Final Obsidian. Sua função é revisar a nota completa para garantir que toda a formatação Markdown esteja correta, que os links internos e externos funcionem, e que a nota seja clara, navegável e otimizada para o uso no Obsidian.";
      py "        ";
      py "        Instruções específicas:";
      py "        - Revise toda a formatação Markdown";
      py "        - Adicione tags relevantes e úteis";
      py "        - Garanta navegabilidade e clareza";
      py "        - Otimize para uso no Obsidian";
      py "        - Mantenha consistência na formatação";
      py "        "].

(** The fixed parts of the requests, in source order; a request that
    embeds a text has a part before it and a part after it. *)
Definition bizus_request : str :=
  py "Identifique dicas, macetes ou bizus importantes no seguinte texto. Retorne apenas as dicas encontradas, uma por linha: ".

Definition structure_request : str :=
  lines [[];
      py "                    Estruture o seguinte conteúdo em Markdown bem organizado:";
      py "                    - Use títulos e subtítulos apropriados (##, ###)";
      py "                    - Crie listas quando apropriado";
      py "                    - Mantenha parágrafos bem formatados";
      py "                    - Preserve toda a informação original";
      py "                    - Não adicione informações que não estão no texto original";
      py "                    ";
      py "                    Conteúdo: "].

Definition structure_request_end : str :=
  lines [[];
      py "                    "].

Definition question_request : str :=
  lines [[];
      py "                    Formate a seguinte questão em Markdown bem estruturado:";
      py "                    - Separe claramente o enunciado, alternativas, gabarito e comentário";
      py "                    - Use formatação apropriada para cada seção";
      py "                    - Mantenha toda a informação original";
      py "                    ";
      py "                    Questão: "].

Definition question_request_end : str :=
  lines [[];
      py "                    "].


Definition diagram_request : str :=
  lines [[];
      py "            Analise o seguinte conteúdo e determine se seria útil adicionar um diagrama Mermaid.";
      py "            Se sim, especifique o tipo (flowchart, sequenceDiagram, graph, mindmap, etc.) e forneça o código Mermaid.";
      py "            Se não for apropriado, responda apenas 'Nenhum diagrama necessário'.";
      py "            ";
      py "            Conteúdo: "].

Definition diagram_request_end : str :=
  lines [[];
      py "            "].

Definition latex_request : str :=
  lines [[];
      py "                Revise e melhore a sintaxe LaTeX no seguinte texto:";
      py "                - Corrija erros de sintaxe LaTeX";
      py "                - Garanta compatibilidade com MathJax do Obsidian";
      py "                - Mantenha fórmulas inline com $...$ e em bloco com $$...$$";
      py "                - Não altere o conteúdo não-matemático";
      py "                - Retorne o texto completo com as correções";
      py "                ";
      py "                Texto: "].

Definition latex_request_end : str :=
  lines [[];
      py "                "].

Definition review_request : str :=
  lines [[];
      py "            Faça uma revisão final desta nota para Obsidian:";
      py "            - Corrija qualquer problema de formatação Markdown";
      py "            - Adicione tags relevantes no final (formato: tags: [tag1, tag2, tag3])";
      py "            - Garanta que títulos estão bem hierarquizados";
      py "            - Verifique se listas e formatações estão corretas";
      py "            - Mantenha todo o conteúdo original";
      py "            - Retorne apenas o conteúdo revisado, sem comentários adicionais";
      py "            ";
      py "            Nota: "].

Definition review_request_end : str :=
  lines [[];
      py "            "].

(** *** TranscriberExtractorAgent *)

Definition TranscriberExtractorAgent (model_name : option str) : EnhancedAgent :=
  Agent (py "Transcritor/Extrator de Conteúdo") TranscriberExtractorAgent_prompt model_name.

(** The dictionary returned by [TranscriberExtractorAgent.process] *)
Record extracted_data : Type := Extracted {
  main_content : str;
  bizus : list str;
  questions : list str
}.

(** [(?is)TITLE.*?(?=\n\n|\Z)] *)
Definition section_rule (title : str) : regex :=
  seqs [ilit title; Star false any; Ahead (Alt (lit [nl; nl]) EndZ)].

Definition patterns_to_remove : list regex :=
  [ section_rule (py "Apresentação do Curso");
    section_rule (py "Sumário");
    section_rule (py "Índice");
    section_rule (py "Conteúdo Introdutório e Administrativo");
    section_rule (py "Material Publicitário");
    section_rule (py "Metadados de Origem");
    (* (?i)Página \d+ *)
    seqs [ilit (py "Página "); plus true digit];
    (* (?i)Direitos Autorais © \d{4} *)
    seqs [ilit (py "Direitos Autorais © "); digit; digit; digit; digit];
    section_rule (py "Seções de Exercícios");
    section_rule (py "Exercícios Não Comentados/Resolvidos") ].

(** The replacement function of the removal loop: the matched text
    goes unless it mentions a question or an answer key. *)
Definition drop_unless_exam (text : str) (m : rmatch) : str :=
  let g := group0 text m in
  if negb (contains (py "Questão") g) && negb (contains (py "Gabarito") g)
  then [] else g.

(** [for pattern in patterns_to_remove: processed_content = re.sub(...)] *)
Definition remove_boilerplate (content : str) : str :=
  foldl (fun processed_content pattern => sub pattern drop_unless_exam processed_content)
    content patterns_to_remove.

(** [(?i)(bizu\s*[:!].*?(?:\n|$))] *)
Definition bizu_pattern : regex :=
  Group 1 (seqs [ilit (py "bizu"); Star true space; colon_or_bang;
                 Star false notnl; Alt (lit [nl]) Dollar]).

(** [Alternativa\s*[A-Z]\)] under [(?i)] *)
Definition alternativa : regex :=
  seqs [ilit (py "Alternativa"); Star true space; upper_i; lit (py ")")].

(** [(?is)(Questão\s*\d*\s*\(.*?\).*?(?:Alternativa\s*[A-Z]\).*?)*Gabarito\s*[:!].*?Comentário\s*[:!].*?(?:\n\n|\Z))] *)
Definition question_pattern : regex :=
  Group 1 (seqs [ilit (py "Questão"); Star true space; Star true digit; Star true space;
                 lit (py "("); Star false any; lit (py ")"); Star false any;
                 Star true (seqs [alternativa; Star false any]);
                 ilit (py "Gabarito"); Star true space; colon_or_bang; Star false any;
                 ilit (py "Comentário"); Star true space; colon_or_bang; Star false any;
                 Alt (lit [nl; nl]) EndZ]).

(** The loop [for match in reversed(matches)]: the stripped text of
    each match is appended to [found] and its span is cut out of
    [processed_content]. The matches were taken on [text], the content
    before the loop, and that is what [match.group(0)] reads. *)
Fixpoint cut_matches (text : str) (reversed_matches : list rmatch)
    (found : list str) (processed_content : str) : list str * str :=
  match reversed_matches with
  | [] => (found, processed_content)
  | m :: rest =>
      cut_matches text rest (found ++ [strip (group0 text m)])
        (take (m_start m) processed_content ++ drop (m_end m) processed_content)
  end.

(** Matches of [pattern] taken out of [processed_content], in the
    order of the text ([found.reverse()] after the loop). *)
Definition extract_all (pattern : regex) (processed_content : str) : list str * str :=
  let '(found, processed_content) :=
    cut_matches processed_content (rev (finditer pattern processed_content))
      [] processed_content in
  (rev found, processed_content).

(** The body of [if ai_bizus and ai_bizus.strip():] *)
Definition add_ai_bizus (bizus : list str) (ai_bizus : str) : list str :=
  if truthy ai_bizus && truthy (strip ai_bizus) then
    foldl (fun bizus line =>
             if truthy (strip line)
                && negb (bool_decide (strip line ∈ map strip bizus))
             then bizus ++ [py "Bizu: " ++ strip line]
             else bizus)
      bizus (split nl (strip ai_bizus))
  else bizus.

(** [TranscriberExtractorAgent.process] *)
Definition TranscriberExtractorAgent_process (R : remote) (self : EnhancedAgent)
    (content : str) : M extracted_data :=
  let processed_content := remove_boilerplate content in
  let '(bizus, processed_content) := extract_all bizu_pattern processed_content in
  let* bizus :=
    (if Nat.ltb 1000 (length processed_content) then
       try_except
         (let* ai_bizus :=
            process_with_gemini R self (bizus_request ++ processed_content) in
          ret (add_ai_bizus bizus ai_bizus))
         (fun _ => ret bizus)
     else ret bizus) in
  let '(questions, processed_content) := extract_all question_pattern processed_content in
  ret {| main_content := strip processed_content;
         bizus := bizus;
         questions := questions |}.

(** *** StructurerVisualizerAgent *)

Definition StructurerVisualizerAgent (model_name : option str) : EnhancedAgent :=
  Agent (py "Estruturador e Visualizador") StructurerVisualizerAgent_prompt model_name.

(** The dictionary returned by [StructurerVisualizerAgent.process] *)
Record structured_data : Type := Structured {
  structured_content : str;
  has_math : bool
}.

(** The main-content section: the remote structuring for a long
    text, the text itself for a short one or when the remote call
    fails. *)
Definition main_section (R : remote) (self : EnhancedAgent) (main_content : str)
    (structured_content : str) : M str :=
  if truthy main_content then
    let structured_content :=
      structured_content ++ py "## Conteúdo Principal" ++ [nl; nl] in
    if Nat.ltb 500 (length main_content) then
      try_except
        (let* ai_structured :=
           process_with_gemini R self
             (structure_request ++ main_content ++ structure_request_end) in
         ret (structured_content ++ ai_structured ++ [nl; nl]))
        (fun _ => ret (structured_content ++ main_content ++ [nl; nl]))
    else ret (structured_content ++ main_content ++ [nl; nl])
  else ret structured_content.

(** [for i, bizu in enumerate(bizus, 1)] *)
Fixpoint bizu_callouts (i : nat) (bizus : list str) (structured_content : str) : str :=
  match bizus with
  | [] => structured_content
  | bizu :: rest =>
      let clean_bizu :=
        strip (replace (py "bizu:") [] (replace (py "Bizu:") [] bizu)) in
      bizu_callouts (S i) rest
        (structured_content ++ py "> [!TIP] **Bizu " ++ str_of_nat i ++ py ":** "
           ++ clean_bizu ++ [nl; nl])
  end.

Definition bizus_section (bizus : list str) (structured_content : str) : str :=
  match bizus with
  | [] => structured_content
  | _ :: _ =>
      bizu_callouts 1 bizus
        (structured_content ++ py "## 💡 Bizus e Dicas Importantes" ++ [nl; nl])
  end.

(** The pattern of the manual formatting, under [(?is)]: four groups
    in a row,
    1. [Questão\s*\d*\s*\(.*?\).*?]
    2. [Alternativa\s*[A-Z]\).*?] and then any number of
       [\nAlternativa\s*[A-Z]\).*?]
    3. [Gabarito\s*[:!].*?]
    4. [Comentário\s*[:!].*] with a greedy end. *)
Definition question_parts : regex :=
  seqs [ Group 1 (seqs [ilit (py "Questão"); Star true space; Star true digit;
                        Star true space; lit (py "("); Star false any; lit (py ")");
                        Star false any]);
         Group 2 (seqs [alternativa; Star false any;
                        Star true (seqs [lit [nl]; alternativa; Star false any])]);
         Group 3 (seqs [ilit (py "Gabarito"); Star true space; colon_or_bang;
                        Star false any]);
         Group 4 (seqs [ilit (py "Comentário"); Star true space; colon_or_bang;
                        Star true any]) ].

(** The manual formatting of one question, used when the remote
    formatting fails. *)
Definition format_question_by_hand (i : nat) (question_text : str)
    (structured_content : str) : str :=
  match search question_parts question_text with
  | Some m =>
      let q_body := strip (group question_text m 1) in
      let alternatives_raw := strip (group question_text m 2) in
      let gabarito := strip (group question_text m 3) in
      let comentario := strip (group question_text m 4) in
      let formatted_alternatives :=
        map (fun alt_line => py "- [ ] " ++ strip alt_line)
          (List.filter (fun alt_line => truthy (strip alt_line))
             (split nl alternatives_raw)) in
      structured_content
        ++ (py "### Questão " ++ str_of_nat i ++ [nl; nl])
        ++ (q_body ++ [nl; nl])
        ++ (join [nl] formatted_alternatives ++ [nl; nl])
        ++ (py "**" ++ gabarito ++ py "**" ++ [nl; nl])
        ++ (py "**" ++ comentario ++ py "**" ++ [nl; nl])
        ++ (py "---" ++ [nl; nl])
  | None =>
      structured_content ++ py "### Questão " ++ str_of_nat i ++ [nl; nl]
        ++ question_text ++ [nl; nl] ++ py "---" ++ [nl; nl]
  end.

(** [for i, question_text in enumerate(questions, 1)] *)
Fixpoint format_questions (R : remote) (self : EnhancedAgent) (i : nat)
    (questions : list str) (structured_content : str) : M str :=
  match questions with
  | [] => ret structured_content
  | question_text :: rest =>
      let* structured_content :=
        try_except
          (let* formatted_question :=
             process_with_gemini R self
               (question_request ++ question_text ++ question_request_end) in
           ret (structured_content ++ py "### Questão " ++ str_of_nat i ++ [nl; nl]
                  ++ formatted_question ++ [nl; nl] ++ py "---" ++ [nl; nl]))
          (fun _ => ret (format_question_by_hand i question_text structured_content)) in
      format_questions R self (S i) rest structured_content
  end.

Definition questions_section (R : remote) (self : EnhancedAgent)
    (questions : list str) (structured_content : str) : M str :=
  match questions with
  | [] => ret structured_content
  | _ :: _ =>
      format_questions R self 1 questions
        (structured_content ++ py "## 📝 Questões de Revisão" ++ [nl; nl])
  end.

(** The diagram suggestion, kept when it mentions Mermaid and does
    not say [nenhum]. *)
Definition diagram_section (R : remote) (self : EnhancedAgent) (main_content : str)
    (structured_content : str) : M str :=
  try_except
    (let* diagram_suggestion :=
       process_with_gemini R self
         (diagram_request ++ take 1000 main_content ++ diagram_request_end) in
     if contains (py "mermaid") (lower diagram_suggestion)
        && negb (contains (py "nenhum") (lower diagram_suggestion))
     then ret (structured_content ++ py "## 📊 Diagrama Ilustrativo" ++ [nl; nl]
                 ++ diagram_suggestion ++ [nl; nl])
     else ret structured_content)
    (fun _ => ret structured_content).

(** The value of the key ['has_math'] *)
Definition mentions_math (main_content : str) : bool :=
  contains (py "$") main_content
  || contains (py "fórmula") (lower main_content)
  || contains (py "equação") (lower main_content).

(** [StructurerVisualizerAgent.process] *)
Definition StructurerVisualizerAgent_process (R : remote) (self : EnhancedAgent)
    (extracted : extracted_data) : M structured_data :=
  let structured_content := py "# Conteúdo Estruturado" ++ [nl; nl] in
  let* structured_content :=
    main_section R self (main_content extracted) structured_content in
  let structured_content := bizus_section (bizus extracted) structured_content in
  let* structured_content :=
    questions_section R self (questions extracted) structured_content in
  let* structured_content :=
    diagram_section R self (main_content extracted) structured_content in
  ret {| structured_content := structured_content;
         has_math := mentions_math (main_content extracted) |}.

(** *** LatexExpertAgent *)

Definition LatexExpertAgent (model_name : option str) : EnhancedAgent :=
  Agent (py "Especialista em LaTeX") LatexExpertAgent_prompt model_name.

(** The dictionary returned by [LatexExpertAgent.process] *)
Record latex_data : Type := Latex {
  content : str;
  latex_processed : bool
}.

(** [\$([^$]+?)\$] and [\$\$([^$]+?)\$\$] *)
Definition inline_math : regex :=
  seqs [lit (py "$"); Group 1 (plus false notdollar); lit (py "$")].
Definition block_math : regex :=
  seqs [lit (py "$$"); Group 1 (plus false notdollar); lit (py "$$")].

(** The templates [$\1$] and [$$\1$$] *)
Definition inline_template (text : str) (m : rmatch) : str :=
  py "$" ++ group text m 1 ++ py "$".
Definition block_template (text : str) (m : rmatch) : str :=
  py "$$" ++ group text m 1 ++ py "$$".

Definition math_notice : str :=
  nl :: py "> [!NOTE] 🧮 Este conteúdo contém fórmulas matemáticas renderizadas com LaTeX/MathJax."
    ++ [nl; nl].

(** [LatexExpertAgent.process] *)
Definition LatexExpertAgent_process (R : remote) (self : EnhancedAgent)
    (structured : structured_data) : M latex_data :=
  let structured_content := structured_content structured in
  let has_math := has_math structured in
  let* structured_content :=
    (if has_math then
       let* structured_content :=
         try_except
           (process_with_gemini R self
              (latex_request ++ structured_content ++ latex_request_end))
           (fun _ =>
              ret (sub block_math block_template
                     (sub inline_math inline_template structured_content))) in
       ret (structured_content ++ math_notice)
     else ret structured_content) in
  ret {| content := structured_content; latex_processed := has_math |}.

(** *** ObsidianFormatterAgent *)

Definition ObsidianFormatterAgent (model_name : option str) : EnhancedAgent :=
  Agent (py "Formatador Final Obsidian") ObsidianFormatterAgent_prompt model_name.

(** The name [time] as the module [agents_enhanced] sees it. The file
    imports [time] only inside its [if __name__ == "__main__":] block,
    so the name is bound when the file is run as a script and unbound
    when the module is imported; [time.strftime('%Y-%m-%d')] then
    yields today's date or raises [NameError]. *)
Definition clock : Type := option str.

Definition strftime (time : clock) : M str :=
  match time with
  | Some today => ret today
  | None => raise NameError
  end.

Definition fallback_tags : str :=
  nl :: py "---" ++ nl :: py "tags: [matemática, latex, estudo]" ++ [nl].

Definition metadata (today : str) : str :=
  py "---" ++ nl :: py "created: " ++ today
    ++ nl :: py "tags: [processado, multi-agente]" ++ nl :: py "---" ++ [nl; nl].

(** The [try] block of [ObsidianFormatterAgent.process] and its
    handler: the remote revision, or the text itself with the basic
    tags when it went through the LaTeX step and has no tags yet. *)
Definition final_review (R : remote) (self : EnhancedAgent) (latex : latex_data) : M str :=
  try_except
    (process_with_gemini R self (review_request ++ content latex ++ review_request_end))
    (fun _ =>
       let final_content := content latex in
       if latex_processed latex && negb (contains (py "tags:") (lower final_content))
       then ret (final_content ++ fallback_tags)
       else ret final_content).

(** The last step of [ObsidianFormatterAgent.process]: the metadata
    header goes in front unless the text starts with [---]. *)
Definition add_metadata (time : clock) (final_content : str) : M str :=
  if negb (startswith final_content (py "---")) then
    let* today := strftime time in
    ret (metadata today ++ final_content)
  else ret final_content.

(** [ObsidianFormatterAgent.process] *)
Definition ObsidianFormatterAgent_process (R : remote) (time : clock)
    (self : EnhancedAgent) (latex : latex_data) : M str :=
  let* final_content := final_review R self latex in
  add_metadata time final_content.

(** *** process_content_with_enhanced_agents *)

Definition default_model_names : gmap str str :=
  list_to_map
    [ (py "TranscriberExtractorAgent", py "gemini-pro");
      (py "StructurerVisualizerAgent", py "gemini-pro");
      (py "LatexExpertAgent", py "gemini-pro");
      (py "ObsidianFormatterAgent", py "gemini-pro") ].

(** The four agents in sequence, on the manager they share. *)
Definition run_agents (R : remote) (time : clock) (raw_content : str)
    (model_names : gmap str str) : M str :=
  let transcriber := TranscriberExtractorAgent (model_names !! py "TranscriberExtractorAgent") in
  let structurer := StructurerVisualizerAgent (model_names !! py "StructurerVisualizerAgent") in
  let latex_expert := LatexExpertAgent (model_names !! py "LatexExpertAgent") in
  let formatter := ObsidianFormatterAgent (model_names !! py "ObsidianFormatterAgent") in
  let* extracted := TranscriberExtractorAgent_process R transcriber raw_content in
  let* structured := StructurerVisualizerAgent_process R structurer extracted in
  let* latex := LatexExpertAgent_process R latex_expert structured in
  ObsidianFormatterAgent_process R time formatter latex.

(** [process_content_with_enhanced_agents]. The manager is built
    before the [try] block; an exception of an agent is printed and
    raised again. Besides the note or the exception, the result shows
    the manager and the requests sent, when a manager was built. *)
Definition process_content_with_enhanced_agents (R : remote) (time : clock)
    (raw_content : str) (api_keys : list str) (model_names : option (gmap str str))
    : result str * option world :=
  let model_names := default default_model_names model_names in
  match __init__ api_keys with
  | Raise e => (Raise e, None)
  | Ok api_manager =>
      let '(final_note, w) :=
        run_agents R time raw_content model_names (World api_manager []) in
      (final_note, Some w)
  end.

End Agents.

(** ** Operations of the pool and the states they reach *)

Module Pool.
Import PyStr ApiManager.
Local Open Scope Z_scope.

(** One operation of the manager, as a change of its state. *)
Inductive step : GeminiAPIManager -> GeminiAPIManager -> Prop :=
| step_get_next_key m :
    step m (get_next_key m).2
| step_mark_key_failed api_key m :
    step m (mark_key_failed api_key m)
| step_get_status m :
    step m (get_status m).2
| step_generate R prompt model_name max_attempts w :
    step (manager w)
      (manager (generate_content_with_fallback R prompt model_name max_attempts w).2)
| step_create_model R model_name w :
    step (manager w) (manager (create_model R model_name w).2).

(** The failure counter of a credential: [retry_count.get(key, 0)] *)
Definition failures (m : GeminiAPIManager) (key : str) : Z :=
  default 0 (retry_count m !! key).

(** Quarantined credentials have reached the threshold. *)
Definition quarantine_inv (m : GeminiAPIManager) : Prop :=
  ∀ key, key ∈ failed_keys m → max_retries m ≤ failures m key.

(** The cursor against the available credentials, and against all. *)
Definition cursor_in_available (m : GeminiAPIManager) : Prop :=
  0 ≤ current_key_index m
  < Z.max 1 (Z.of_nat (length (available_keys m))).

Definition cursor_in_pool (m : GeminiAPIManager) : Prop :=
  0 ≤ current_key_index m < Z.max 1 (Z.of_nat (length (api_keys m))).

(** [n] calls of [get_next_key] in a row, with what they return. *)
Fixpoint next_keys (n : nat) (m : GeminiAPIManager)
    : list (option str) * GeminiAPIManager :=
  match n with
  | O => ([], m)
  | S n' =>
      let '(key, m) := get_next_key m in
      let '(keys, m) := next_keys n' m in
      (key :: keys, m)
  end.

(** [n] calls of [mark_key_failed] on the same credential. *)
Fixpoint mark_times (n : nat) (api_key : str) (m : GeminiAPIManager)
    : GeminiAPIManager :=
  match n with
  | O => m
  | S n' => mark_times n' api_key (mark_key_failed api_key m)
  end.



(** A remote service that fails on every request. *)
Definition always_fails (R : remote) : Prop := ∀ n rq, R n rq = None.

Definition unreachable : remote := fun _ _ => None.




End Pool.

(** ** Notions about the agents used in the statements *)

Module Notes.
Import PyStr Re ApiManager Agents.

(** The text left after the boilerplate and the bizus are taken out,
    and the main content and the questions the extractor returns: they
    do not depend on the remote service. *)
Definition without_bizus (content : str) : str :=
  (extract_all bizu_pattern (remove_boilerplate content)).2.

Definition extracted_main_content (content : str) : str :=
  strip (extract_all question_pattern (without_bizus content)).2.

Definition extracted_questions (content : str) : list str :=
  (extract_all question_pattern (without_bizus content)).1.

(** What [final_review] falls back to. *)
Definition tagged (latex : latex_data) : str :=
  content latex
    ++ (if latex_processed latex && negb (contains (py "tags:") (lower (content latex)))
        then fallback_tags else []).

End Notes.

(** ** The rest of [EnhancedAgent], and notions for further properties *)

Module More.
Import PyStr Re ApiManager Agents Pool.
Local Open Scope Z_scope.

(** [EnhancedAgent.ensure_model]. The attribute [self.model] is [None]
    or a model object, which is true; the call returns or raises, and
    leaves the attribute as the second component shows. *)
Definition ensure_model (R : remote) (self : EnhancedAgent)
    (model : option (option str)) (w : world)
    : result unit * option (option str) * world :=
  let '(model, w) :=
    match model with
    | Some _ => (model, w)
    | None => create_model R (model_name self) w
    end in
  match model with
  | Some _ => (Ok tt, model, w)
  | None => (Raise RuntimeError, model, w)
  end.

(** The operations the agents and the pipeline perform on the manager:
    all but a direct [mark_key_failed], which only the two loops call,
    each time on the credential [get_next_key] has just returned. *)
Inductive client_step : GeminiAPIManager -> GeminiAPIManager -> Prop :=
| client_get_next_key m :
    client_step m (get_next_key m).2
| client_get_status m :
    client_step m (get_status m).2
| client_generate R prompt model_name max_attempts w :
    client_step (manager w)
      (manager (generate_content_with_fallback R prompt model_name max_attempts w).2)
| client_create_model R model_name w :
    client_step (manager w) (manager (create_model R model_name w).2).

(** No counter is above the threshold, and the quarantined
    credentials are those whose counter has reached it. *)
Definition counted (m : GeminiAPIManager) : Prop :=
  ∀ key,
    failures m key ≤ max_retries m
    ∧ (key ∈ failed_keys m ↔ max_retries m ≤ failures m key).

(** The same with a threshold above zero and no counter below it. *)
Definition well_counted (m : GeminiAPIManager) : Prop :=
  0 < max_retries m ∧ counted m ∧ ∀ key, 0 ≤ failures m key.

(** Matches in the order of the text, none overlapping the next, all
    between offset [i] and offset [n]. *)
Fixpoint in_order (i n : nat) (ms : list rmatch) : Prop :=
  match ms with
  | [] => True
  | m :: ms' =>
      (i ≤ m_start m)%nat ∧ (m_start m ≤ m_end m)%nat ∧ (m_end m ≤ n)%nat
      ∧ in_order (m_end m) n ms'
  end.

(** [m] is what the matcher yields for [r] at offset [m_start m] of
    [text]. *)
Definition matched (r : regex) (text : str) (m : rmatch) : Prop :=
  exec r (m_start m) (drop (m_start m) text) ∅
    (fun e _ g => Some (Match (m_start m) e g)) = Some m.

(** A text without white space at either end. *)
Definition trimmed (s : str) : Prop :=
  match s with
  | [] => True
  | c :: _ => isspace c = false
  end
  ∧ match last s with
    | Some c => isspace c = false
    | None => True
    end.

(** The bizus the pattern finds, before the remote service is asked
    for more. *)
Definition extracted_bizus (content : str) : list str :=
  (extract_all bizu_pattern (remove_boilerplate content)).1.

(** A bizu taken from a line of a remote answer, new with respect to
    the bizus [found] by the pattern. *)
Definition ai_bizu (found : list str) (bizu : str) : Prop :=
  ∃ line,
    bizu = py "Bizu: " ++ strip line
    ∧ strip line ≠ []
    ∧ strip line ∉ map strip found.

(** From [w] to [w'] the manager went through operations of its
    clients, and the requests sent since are at most [k] per configured
    credential, each with a configured, non-empty credential. *)
Definition spends (k : nat) (w w' : world) : Prop :=
  rtc client_step (manager w) (manager w')
  ∧ ∃ new,
      sent w' = sent w ++ new
      ∧ (length new ≤ k * length (api_keys (manager w)))%nat
      ∧ Forall (fun rq => rq_key rq ∈ api_keys (manager w) ∧ rq_key rq ≠ []) new.

(** A computation that spends at most [k] from every state. *)
Definition costs {A} (k : nat) (c : M A) : Prop :=
  ∀ w, spends k w (c w).2.


End More.

(** ** Properties of the pool *)

Import PyStr Re ApiManager Pool Agents Notes More.
Local Open Scope Z_scope.

(** A decidable statement about concrete data, settled by running the
    decision procedure. *)
Ltac by_evaluation :=
  match goal with
  | |- ?P => refine (@bool_decide_unpack P _ _); vm_compute; exact I
  end.

(** A text that only grows at its end keeps its beginning. *)
Ltac extends := repeat apply prefix_app_r; reflexivity.

Lemma init_ok keys m0 :
  __init__ keys = Ok m0 →
  keys ≠ [] ∧ m0 = Manager keys 0 ∅ ∅ 3 1.
Proof. destruct keys; simpl; intros H; inversion H; split; done. Qed.

Lemma available_keys_subset m key :
  key ∈ available_keys m → key ∈ api_keys m ∧ key ∉ failed_keys m.
Proof. unfold available_keys. rewrite list_elem_of_filter. tauto. Qed.

Lemma available_keys_fresh keys i rc mr rd :
  available_keys (Manager keys i ∅ rc mr rd) = keys.
Proof.
  unfold available_keys; simpl.
  induction keys as [|k ks IH]; [done|].
  rewrite filter_cons_True; [by rewrite IH | set_solver].
Qed.

(** The subscript of [get_next_key] is within the list. *)
Lemma cursor_lookup (l : list str) (i : Z) :
  l ≠ [] → is_Some (l !! Z.to_nat (i `mod` Z.of_nat (length l))).
Proof.
  intros Hl. apply lookup_lt_is_Some.
  assert (0 < Z.of_nat (length l)) by (destruct l; simpl in *; [done | lia]).
  pose proof (Z.mod_pos_bound i (Z.of_nat (length l))); lia.
Qed.

(** What [get_next_key] does, by cases on the available list. *)
Lemma get_next_key_available m :
  available_keys m ≠ [] →
  let n := Z.of_nat (length (available_keys m)) in
  get_next_key m =
    (available_keys m !! Z.to_nat (current_key_index m `mod` n),
     set_index m ((current_key_index m + 1) `mod` n)).
Proof.
  intros Hne. unfold get_next_key.
  destruct (available_keys m) as [|k l] eqn:E; [done|]. reflexivity.
Qed.

Lemma get_next_key_reset m :
  available_keys m = [] → api_keys m ≠ [] →
  let n := Z.of_nat (length (api_keys m)) in
  get_next_key m =
    (api_keys m !! Z.to_nat (current_key_index m `mod` n),
     set_index (reset m) ((current_key_index m + 1) `mod` n)).
Proof.
  intros Hav Hne. unfold get_next_key. rewrite Hav.
  destruct (api_keys m) as [|k l] eqn:E; [done|]. reflexivity.
Qed.

Lemma get_next_key_empty m :
  api_keys m = [] → get_next_key m = (None, reset m).
Proof.
  intros He. unfold get_next_key.
  assert (available_keys m = []) as -> by (unfold available_keys; by rewrite He).
  by rewrite He.
Qed.

(** A property kept by [get_next_key] and [mark_key_failed] is kept by
    the loops built from them, hence by every operation. *)
Section Preservation.
Variable P : GeminiAPIManager -> Prop.
Hypothesis P_next : ∀ m, P m → P (get_next_key m).2.
Hypothesis P_mark : ∀ key m, P m → P (mark_key_failed key m).

Lemma attempts_preserves R n prompt model_name w :
  P (manager w) → P (manager (attempts R n prompt model_name w).2).
Proof.
  revert w. induction n as [|n IH]; intros w Hw; simpl; [done|].
  pose proof (P_next _ Hw) as Hn.
  destruct (get_next_key (manager w)) as [key m1]; simpl in Hn.
  destruct key as [key|]; [|done].
  destruct (truthy key); [|done].
  unfold send; simpl.
  destruct (R _ _); [done|].
  apply IH; simpl. by apply P_mark.
Qed.

Lemma create_model_loop_preserves R n model_name w :
  P (manager w) → P (manager (create_model_loop R n model_name w).2).
Proof.
  revert w. induction n as [|n IH]; intros w Hw; simpl; [done|].
  pose proof (P_next _ Hw) as Hn.
  destruct (get_next_key (manager w)) as [key m1]; simpl in Hn.
  destruct key as [key|]; [|done].
  destruct (truthy key); [|done].
  unfold send; simpl.
  destruct (R _ _); [done|].
  apply IH; simpl. by apply P_mark.
Qed.

Lemma step_preserves m m' : step m m' → P m → P m'.
Proof.
  destruct 1; intros HP.
  - by apply P_next.
  - by apply P_mark.
  - done.
  - by apply attempts_preserves.
  - by apply create_model_loop_preserves.
Qed.

Lemma steps_preserve m m' : rtc step m m' → P m → P m'.
Proof. induction 1; eauto using step_preserves. Qed.
End Preservation.

Lemma get_next_key_constants m :
  let m' := (get_next_key m).2 in
  api_keys m' = api_keys m ∧ max_retries m' = max_retries m.
Proof.
  unfold get_next_key.
  destruct (available_keys m) as [|k l]; [destruct (api_keys m) eqn:E|]; simpl; auto.
Qed.

Lemma steps_constants m m' :
  rtc step m m' → api_keys m' = api_keys m ∧ max_retries m' = max_retries m.
Proof.
  intros Hs.
  apply (steps_preserve (fun x => api_keys x = api_keys m ∧ max_retries x = max_retries m))
    with (m := m); [| done | done | done].
  intros x [H1 H2]. destruct (get_next_key_constants x) as [-> ->]. done.
Qed.

Lemma reachable_constants keys m0 m :
  __init__ keys = Ok m0 → rtc step m0 m →
  api_keys m = keys ∧ keys ≠ [] ∧ max_retries m = 3.
Proof.
  intros [Hne ->]%init_ok Hs.
  destruct (steps_constants _ _ Hs) as [-> ->]. done.
Qed.

Lemma available_keys_all m :
  failed_keys m = ∅ → available_keys m = api_keys m.
Proof.
  destruct m as [keys i f rc mr rd]; simpl; intros ->.
  apply available_keys_fresh.
Qed.

(** No credential is available exactly when all are quarantined. *)
Lemma available_keys_nil m :
  available_keys m = [] ↔ ∀ key, key ∈ api_keys m → key ∈ failed_keys m.
Proof.
  unfold available_keys. split.
  - intros H key Hk.
    destruct (decide (key ∈ failed_keys m)) as [|Hn]; [done|].
    assert (key ∈ filter (fun key => key ∉ failed_keys m) (api_keys m)) as Hin
      by (apply list_elem_of_filter; done).
    rewrite H in Hin. by apply elem_of_nil in Hin.
  - intros H. induction (api_keys m) as [|k l IH]; [done|].
    rewrite filter_cons_False; [|intros Hn; apply Hn, H; left].
    apply IH. intros key Hk. apply H. by right.
Qed.

(** On a pool with at least one credential [get_next_key] returns a
    credential: one of the available ones, or after a full reset one of
    the configured ones. *)
Lemma get_next_key_some m :
  api_keys m ≠ [] →
  ∃ key, (get_next_key m).1 = Some key ∧ key ∈ api_keys m
    ∧ (available_keys m ≠ [] →
         key ∈ available_keys m ∧ (get_next_key m).2 =
           set_index m ((current_key_index m + 1)
                          `mod` Z.of_nat (length (available_keys m))))
    ∧ (available_keys m = [] →
         (get_next_key m).2 =
           set_index (reset m) ((current_key_index m + 1)
                                  `mod` Z.of_nat (length (api_keys m)))).
Proof.
  intros Hne.
  destruct (decide (available_keys m = [])) as [Hav|Hav].
  - rewrite (get_next_key_reset m Hav Hne); simpl.
    destruct (cursor_lookup (api_keys m) (current_key_index m) Hne) as [key Hk].
    exists key. repeat split; [done | by eapply list_elem_of_lookup_2 | done | done].
  - rewrite (get_next_key_available m Hav); simpl.
    destruct (cursor_lookup (available_keys m) (current_key_index m) Hav) as [key Hk].
    assert (key ∈ available_keys m) as Hin by (by eapply list_elem_of_lookup_2).
    exists key. repeat split; try done.
    by apply available_keys_subset in Hin as [? _].
Qed.

(** C1. [get_next_key] on a pool built over a non-empty list of
    credentials never returns [None], whatever operations came before:
    it returns one of the configured credentials, an available one when
    there is any; when none is available (every credential is
    quarantined) the call empties the quarantine set and the failure
    counters, after which every credential is available again, and
    still returns a credential. *)
Theorem get_next_key_never_none (keys : list str) (m0 m : GeminiAPIManager) :
  __init__ keys = Ok m0 → rtc step m0 m →
  ∃ key,
    (get_next_key m).1 = Some key ∧ key ∈ keys
    ∧ (available_keys m ≠ [] → key ∈ available_keys m)
    ∧ ((∀ k, k ∈ keys → k ∈ failed_keys m) →
         available_keys m = []
         ∧ failed_keys (get_next_key m).2 = ∅
         ∧ retry_count (get_next_key m).2 = ∅
         ∧ available_keys (get_next_key m).2 = keys).
Proof.
  intros Hinit Hsteps.
  destruct (reachable_constants _ _ _ Hinit Hsteps) as (Hkeys & Hne & _).
  rewrite <- Hkeys in Hne.
  destruct (get_next_key_some m Hne) as (key & Hret & Hin & Hav & Hreset).
  exists key. rewrite <- Hkeys. repeat split; try done.
  - intros H. by apply Hav.
  - by apply available_keys_nil.
  - rewrite Hreset; [done | by apply available_keys_nil].
  - rewrite Hreset; [done | by apply available_keys_nil].
  - rewrite Hreset; [| by apply available_keys_nil].
    by rewrite available_keys_all.
Qed.

(** A pool of two credentials, both quarantined after three failures
    each: the next call resets the pool and returns the first one. *)
Lemma get_next_key_never_none_witness :
  let keys := [py "k1"; py "k2"] in
  let m0 := Manager keys 0 ∅ ∅ 3 1 in
  let m := mark_times 3 (py "k2") (mark_times 3 (py "k1") m0) in
  failed_keys m = {[py "k1"; py "k2"]}
  ∧ ∃ key,
      (get_next_key m).1 = Some key ∧ key ∈ keys
      ∧ (available_keys m ≠ [] → key ∈ available_keys m)
      ∧ ((∀ k, k ∈ keys → k ∈ failed_keys m) →
           available_keys m = []
           ∧ failed_keys (get_next_key m).2 = ∅
           ∧ retry_count (get_next_key m).2 = ∅
           ∧ available_keys (get_next_key m).2 = keys).
Proof.
  intros keys m0 m. split; [by vm_compute|].
  apply (get_next_key_never_none keys m0 m); [reflexivity|].
  unfold m; simpl.
  do 6 (eapply rtc_l; [apply step_mark_key_failed|]).
  apply rtc_refl.
Defined.

(** With nothing quarantined, [j] calls from cursor [i] return the
    credentials of the slots [i], ..., [i + j - 1] and leave the cursor
    on slot [i + j], back on slot 0 after the last one. *)
Lemma next_keys_from keys rc mr rd (j i : nat) :
  (i + j ≤ length keys)%nat → (i < length keys)%nat →
  next_keys j (Manager keys (Z.of_nat i) ∅ rc mr rd) =
    (Some <$> take j (drop i keys),
     Manager keys (Z.of_nat (i + j) `mod` Z.of_nat (length keys)) ∅ rc mr rd).
Proof.
  revert i. induction j as [|j IH]; intros i Hij Hi.
  - simpl. rewrite Nat.add_0_r, Z.mod_small by lia. done.
  - cbn [next_keys].
    rewrite get_next_key_available
      by (rewrite available_keys_fresh; destruct keys; simpl in *; [lia | done]).
    rewrite available_keys_fresh.
    cbn [current_key_index]. rewrite (Z.mod_small (Z.of_nat i)) by lia.
    rewrite Nat2Z.id.
    destruct (lookup_lt_is_Some_2 keys i Hi) as [key Hkey].
    rewrite Hkey. unfold set_index; simpl.
    destruct (decide (i + 1 = length keys)%nat) as [Hlast|Hmore].
    + assert (j = 0%nat) as -> by lia. simpl.
      replace (Z.of_nat i + 1) with (Z.of_nat (i + 1)) by lia.
      rewrite (drop_S _ _ _ Hkey). done.
    + replace ((Z.of_nat i + 1) `mod` Z.of_nat (length keys)) with (Z.of_nat (S i))
        by (rewrite Z.mod_small; lia).
      rewrite IH by lia.
      rewrite (drop_S _ _ _ Hkey). simpl.
      replace (S (i + j)) with (i + S j)%nat by lia. done.
Qed.

(** One round over a freshly built pool. *)
Lemma fresh_round (keys : list str) :
  keys ≠ [] →
  next_keys (length keys) (Manager keys 0 ∅ ∅ 3 1)
  = (Some <$> keys, Manager keys 0 ∅ ∅ 3 1).
Proof.
  intros Hne.
  assert (0 < length keys)%nat by (destruct keys; simpl; [done | lia]).
  change 0 with (Z.of_nat 0).
  rewrite next_keys_from by lia.
  rewrite drop_0, firstn_all. simpl. rewrite Z.mod_same by lia. done.
Qed.

(** C3. On a freshly built pool, without any failure marked, as many
    [get_next_key] calls as there are credentials return the credentials
    of the configured list, slot by slot and each once, and leave the
    pool in its initial state; the next round of calls therefore returns
    the same sequence again. *)
Theorem rotation_is_fair_and_cyclic (keys : list str) (m0 : GeminiAPIManager) :
  __init__ keys = Ok m0 →
  next_keys (length keys) m0 = (Some <$> keys, m0)
  ∧ next_keys (length keys) (next_keys (length keys) m0).2 = (Some <$> keys, m0).
Proof.
  intros [Hne ->]%init_ok.
  rewrite (fresh_round keys Hne). simpl. by rewrite (fresh_round keys Hne).
Qed.

Lemma rotation_is_fair_and_cyclic_witness :
  let keys := [py "k1"; py "k2"; py "k1"] in
  let m0 := Manager keys 0 ∅ ∅ 3 1 in
  next_keys (length keys) m0 = (Some <$> keys, m0)
  ∧ next_keys (length keys) (next_keys (length keys) m0).2 = (Some <$> keys, m0).
Proof.
  intros keys m0. apply (rotation_is_fair_and_cyclic keys m0). reflexivity.
Defined.

(** [mark_key_failed] on the counters and on the quarantine set. *)
Lemma failures_mark_same api_key m :
  failures (mark_key_failed api_key m) api_key = failures m api_key + 1.
Proof. unfold failures; simpl. by rewrite lookup_insert_eq. Qed.

Lemma failures_mark_other api_key other m :
  other ≠ api_key →
  failures (mark_key_failed api_key m) other = failures m other.
Proof. intros Hne. unfold failures; simpl. by rewrite lookup_insert_ne. Qed.

Lemma failed_keys_mark api_key key m :
  key ∈ failed_keys (mark_key_failed api_key m) ↔
  key ∈ failed_keys m ∨ (key = api_key ∧ max_retries m ≤ failures m api_key + 1).
Proof.
  unfold failures; simpl. case_bool_decide as Hreached.
  - rewrite elem_of_union, elem_of_singleton. split.
    + intros [Hold | ->]; [by left | by right].
    + intros [Hold | [-> _]]; [by left | by right].
  - split; [by left|]. intros [Hold | [_ Hge]]; [done | by destruct Hreached].
Qed.

Lemma quarantine_inv_next m : quarantine_inv m → quarantine_inv (get_next_key m).2.
Proof.
  intros Hinv. unfold get_next_key.
  destruct (available_keys m) as [|k l]; [destruct (api_keys m)|]; simpl;
    intros key Hkey; simpl in *.
  - by apply not_elem_of_empty in Hkey.
  - by apply not_elem_of_empty in Hkey.
  - by apply Hinv.
Qed.

Lemma quarantine_inv_mark api_key m :
  quarantine_inv m → quarantine_inv (mark_key_failed api_key m).
Proof.
  intros Hinv key [Hold | [-> Hnew]]%failed_keys_mark.
  - change (max_retries (mark_key_failed api_key m)) with (max_retries m).
    destruct (decide (key = api_key)) as [->|Hne].
    + rewrite failures_mark_same. specialize (Hinv _ Hold). lia.
    + rewrite failures_mark_other by done. by apply Hinv.
  - rewrite failures_mark_same. done.
Qed.

Lemma quarantine_inv_step m m' : step m m' → quarantine_inv m → quarantine_inv m'.
Proof.
  apply step_preserves; [apply quarantine_inv_next | apply quarantine_inv_mark].
Qed.

(** C4. A freshly built pool has no counter and no quarantined
    credential, and its threshold is 3. In every state the pool reaches,
    a quarantined credential has at least 3 failures, and every
    operation of the pool keeps it so. There, [mark_key_failed] adds
    exactly one to the counter of its credential, which is quarantined
    afterwards exactly when that counter has reached 3; the counter and
    the quarantine of every other credential stay as they were. *)
Theorem quarantine_means_threshold_reached (keys : list str) (m0 m : GeminiAPIManager) :
  __init__ keys = Ok m0 → rtc step m0 m →
  (failed_keys m0 = ∅ ∧ retry_count m0 = ∅ ∧ quarantine_inv m0)
  ∧ max_retries m = 3
  ∧ quarantine_inv m
  ∧ (∀ m', step m m' → quarantine_inv m')
  ∧ ∀ api_key,
      let m' := mark_key_failed api_key m in
      failures m' api_key = failures m api_key + 1
      ∧ (api_key ∈ failed_keys m' ↔ 3 ≤ failures m' api_key)
      ∧ ∀ other, other ≠ api_key →
          failures m' other = failures m other
          ∧ (other ∈ failed_keys m' ↔ other ∈ failed_keys m).
Proof.
  intros Hinit Hsteps.
  destruct (reachable_constants _ _ _ Hinit Hsteps) as (_ & _ & Hmax).
  apply init_ok in Hinit as [_ ->].
  assert (quarantine_inv (Manager keys 0 ∅ ∅ 3 1)) as Hinv0
    by (intros key Hkey; simpl in Hkey; set_solver).
  assert (quarantine_inv m) as Hinv.
  { eapply (steps_preserve quarantine_inv); eauto using quarantine_inv_next, quarantine_inv_mark. }
  repeat split; try done.
  - intros m' Hstep. by eapply quarantine_inv_step.
  - apply failures_mark_same.
  - intros [Hold | [_ Hnew]]%failed_keys_mark.
    + rewrite failures_mark_same. specialize (Hinv _ Hold). lia.
    + rewrite failures_mark_same. lia.
  - intros Hge. apply failed_keys_mark. right. split; [done|].
    rewrite failures_mark_same in Hge. lia.
  - by apply failures_mark_other.
  - intros [Hold | [-> _]]%failed_keys_mark; done.
  - intros Hold. apply failed_keys_mark. by left.
Qed.

Lemma quarantine_means_threshold_reached_witness :
  let keys := [py "k1"; py "k2"] in
  let m0 := Manager keys 0 ∅ ∅ 3 1 in
  let m := mark_times 2 (py "k1") (get_next_key m0).2 in
  (failures m (py "k1") = 2 ∧ (py "k1" ∉ failed_keys m)
   ∧ (py "k1" ∈ failed_keys (mark_key_failed (py "k1") m)))
  ∧ (failed_keys m0 = ∅ ∧ retry_count m0 = ∅ ∧ quarantine_inv m0)
  ∧ max_retries m = 3
  ∧ quarantine_inv m
  ∧ (∀ m', step m m' → quarantine_inv m')
  ∧ ∀ api_key,
      let m' := mark_key_failed api_key m in
      failures m' api_key = failures m api_key + 1
      ∧ (api_key ∈ failed_keys m' ↔ 3 ≤ failures m' api_key)
      ∧ ∀ other, other ≠ api_key →
          failures m' other = failures m other
          ∧ (other ∈ failed_keys m' ↔ other ∈ failed_keys m).
Proof.
  intros keys m0 m. split.
  - repeat split; by_evaluation.
  - apply (quarantine_means_threshold_reached keys m0 m); [reflexivity|].
    eapply rtc_l; [apply step_get_next_key|].
    do 2 (eapply rtc_l; [apply step_mark_key_failed|]).
    apply rtc_refl.
Defined.

(** The cursor after [get_next_key] lies within the list the call
    selected from, which is the available list of the new state. *)
Lemma cursor_in_available_next m :
  api_keys m ≠ [] → cursor_in_available (get_next_key m).2.
Proof.
  intros Hne. unfold cursor_in_available.
  destruct (decide (available_keys m = [])) as [Hav|Hav].
  - rewrite (get_next_key_reset m Hav Hne); simpl.
    rewrite (available_keys_all (set_index (reset m) _)) by done. simpl.
    assert (0 < Z.of_nat (length (api_keys m)))
      by (destruct (api_keys m); simpl in *; [done | lia]).
    pose proof (Z.mod_pos_bound (current_key_index m + 1) (Z.of_nat (length (api_keys m)))).
    lia.
  - rewrite (get_next_key_available m Hav); simpl.
    change (available_keys (set_index m _)) with (available_keys m).
    assert (0 < Z.of_nat (length (available_keys m)))
      by (destruct (available_keys m); simpl in *; [done | lia]).
    pose proof (Z.mod_pos_bound (current_key_index m + 1)
                  (Z.of_nat (length (available_keys m)))).
    lia.
Qed.

Lemma available_keys_length m :
  (length (available_keys m) ≤ length (api_keys m))%nat.
Proof. apply length_filter. Qed.

Lemma cursor_in_pool_next m : cursor_in_pool m → cursor_in_pool (get_next_key m).2.
Proof.
  intros Hin. destruct (decide (api_keys m = [])) as [He|Hne].
  - rewrite (get_next_key_empty m He). done.
  - pose proof (cursor_in_available_next m Hne) as Hav.
    pose proof (available_keys_length (get_next_key m).2) as Hlen.
    unfold cursor_in_pool, cursor_in_available in *. lia.
Qed.

(** C6, as the pool has it. The cursor of a freshly built pool lies
    within the available list. In every state the pool reaches the
    cursor lies within the configured list, and immediately after a
    [get_next_key] call it lies within the available list;
    [get_status], and a [mark_key_failed] call that quarantines nothing
    new, leave it within the available list when it was. *)
Theorem cursor_stays_in_pool (keys : list str) (m0 m : GeminiAPIManager) :
  __init__ keys = Ok m0 → rtc step m0 m →
  cursor_in_available m0
  ∧ cursor_in_pool m
  ∧ cursor_in_available (get_next_key m).2
  ∧ (cursor_in_available m → cursor_in_available (get_status m).2)
  ∧ (∀ api_key,
       failed_keys (mark_key_failed api_key m) = failed_keys m →
       cursor_in_available m → cursor_in_available (mark_key_failed api_key m)).
Proof.
  intros Hinit Hsteps.
  destruct (reachable_constants _ _ _ Hinit Hsteps) as (Hkeys & Hne & _).
  apply init_ok in Hinit as [_ ->].
  assert (cursor_in_pool (Manager keys 0 ∅ ∅ 3 1)) as Hpool0
    by (unfold cursor_in_pool; simpl; lia).
  split; [| split; [| split; [| split]]].
  - unfold cursor_in_available. rewrite available_keys_fresh. simpl. lia.
  - eapply (steps_preserve cursor_in_pool cursor_in_pool_next); [| done | done].
    intros key x Hx. apply Hx.
  - apply cursor_in_available_next. by rewrite Hkeys.
  - intros Hin. apply Hin.
  - intros api_key Hsame Hin.
    unfold cursor_in_available, available_keys in *. rewrite Hsame. apply Hin.
Qed.

Lemma cursor_stays_in_pool_witness :
  let keys := [py "k1"; py "k2"] in
  let m0 := Manager keys 0 ∅ ∅ 3 1 in
  let m := mark_times 3 (py "k1") (get_next_key m0).2 in
  cursor_in_available m0
  ∧ cursor_in_pool m
  ∧ cursor_in_available (get_next_key m).2
  ∧ (cursor_in_available m → cursor_in_available (get_status m).2)
  ∧ (∀ api_key,
       failed_keys (mark_key_failed api_key m) = failed_keys m →
       cursor_in_available m → cursor_in_available (mark_key_failed api_key m)).
Proof.
  intros keys m0 m.
  apply (cursor_stays_in_pool keys m0 m); [reflexivity|].
  eapply rtc_l; [apply step_get_next_key|].
  do 3 (eapply rtc_l; [apply step_mark_key_failed|]).
  apply rtc_refl.
Defined.

(** C6 as stated fails: with two credentials and the cursor on the
    second slot, the third failure of the first credential quarantines
    it; one credential is left available and the cursor, still 1, is no
    longer below [max(1, 1)]. *)
Lemma cursor_leaves_available_range :
  let keys := [py "k1"; py "k2"] in
  let m0 := Manager keys 0 ∅ ∅ 3 1 in
  let m := mark_times 2 (py "k1") (get_next_key m0).2 in
  __init__ keys = Ok m0
  ∧ rtc step m0 m
  ∧ cursor_in_available m
  ∧ available_keys (mark_key_failed (py "k1") m) = [py "k2"]
  ∧ current_key_index (mark_key_failed (py "k1") m) = 1
  ∧ ¬ cursor_in_available (mark_key_failed (py "k1") m).
Proof.
  intros keys m0 m. split; [reflexivity|]. split.
  { eapply rtc_l; [apply step_get_next_key|].
    do 2 (eapply rtc_l; [apply step_mark_key_failed|]).
    apply rtc_refl. }
  assert (available_keys m = keys) as Hbefore by by_evaluation.
  assert (available_keys (mark_key_failed (py "k1") m) = [py "k2"]) as Hafter
    by by_evaluation.
  assert (current_key_index (mark_key_failed (py "k1") m) = 1) as Hcursor
    by reflexivity.
  split; [| split; [done | split; [done |]]].
  - unfold cursor_in_available. rewrite Hbefore. change (current_key_index m) with 1.
    simpl. lia.
  - unfold cursor_in_available. rewrite Hafter, Hcursor. simpl. lia.
Qed.




(** *** The fallback loop when every request fails *)








(** ** Properties of the pipeline *)

(** C10. Building the manager over an empty list raises [ValueError];
    whenever building succeeds the manager holds the given list, which
    has at least one credential, and the only exception it can raise is
    the one for the empty list; the pipeline called with an empty list
    raises [ValueError] while it builds the manager, whatever the text,
    the remote service and the model names: no manager exists, no agent
    has run and no request was sent. *)
Theorem empty_pool_is_rejected :
  __init__ [] = Raise ValueError
  ∧ (∀ keys : list str,
       match __init__ keys with
       | Ok m => api_keys m = keys ∧ (1 ≤ length (api_keys m))%nat
       | Raise e => keys = [] ∧ e = ValueError
       end)
  ∧ (∀ (R : remote) (time : clock) (raw_content : str)
       (model_names : option (gmap str str)),
       process_content_with_enhanced_agents R time raw_content [] model_names
       = (Raise ValueError, None)).
Proof.
  split; [reflexivity|]. split.
  - intros [|k keys]; simpl; [done|]. split; [done | lia].
  - intros R time raw_content model_names. reflexivity.
Qed.

(** *** Prefixes and occurrences *)

Lemma startswith_app_l (p s t : str) :
  startswith s p = true → startswith (s ++ t) p = true.
Proof.
  revert s. induction p as [|y p IH]; intros s.
  - by destruct s.
  - destruct s as [|x s]; simpl; [done|].
    intros [Hx Hs]%andb_true_iff. rewrite Hx. simpl. by apply IH.
Qed.

Lemma startswith_self_app (p s : str) : startswith (p ++ s) p = true.
Proof. induction p as [|y p IH]; simpl; [done|]. by rewrite N.eqb_refl. Qed.

Lemma contains_here (p s : str) : startswith s p = true → contains p s = true.
Proof. destruct s; simpl; intros ->; done. Qed.

Lemma contains_app_r (p a b : str) :
  contains p b = true → contains p (a ++ b) = true.
Proof.
  intros Hb. induction a as [|x a IH]; simpl; [done|].
  rewrite IH. apply orb_true_r.
Qed.

Lemma contains_app_l (p a b : str) :
  contains p a = true → contains p (a ++ b) = true.
Proof.
  induction a as [|x a IH].
  - simpl. rewrite orb_false_r. intros Hp. apply contains_here.
    by apply (startswith_app_l p [] b).
  - cbn [contains]. intros [Hhere | Hlater]%orb_true_iff.
    + apply contains_here. by apply startswith_app_l.
    + change ((x :: a) ++ b) with (x :: (a ++ b)). cbn [contains].
      rewrite (IH Hlater). apply orb_true_r.
Qed.

Lemma contains_middle (p a b : str) : contains p (a ++ p ++ b) = true.
Proof. apply contains_app_r, contains_here, startswith_self_app. Qed.


(** *** Matches *)

(** A successful match went through its continuation. *)
Lemma exec_result {A} (r : regex) :
  ∀ i s g (k : nat → str → spans → option A) a,
    exec r i s g k = Some a → ∃ i' s' g', k i' s' g' = Some a.
Proof.
  induction r as [|p|r1 IH1 r2 IH2|r1 IH1 r2 IH2|greedy r1 IH1|n r1 IH1|r1 _| |];
    intros i s g k a H.
  - eauto.
  - simpl in H. destruct s as [|x s]; [done|]. destruct (p x); [eauto | done].
  - simpl in H. apply IH1 in H as (i1 & s1 & g1 & H). by apply IH2 in H.
  - simpl in H. destruct (exec r1 i s g k) as [a1|] eqn:E1; simpl in H.
    + inversion H; subst. by apply IH1 in E1.
    + by apply IH2 in H.
  - change (star_loop (exec r1) greedy k (S (length s)) i s g = Some a) in H.
    revert H. generalize (S (length s)). intros fuel. revert i s g a.
    induction fuel as [|fuel IHf]; intros i s g a H; [eauto|].
    cbn [star_loop] in H.
    assert (∀ b, exec r1 i s g
                   (fun i' s' g' =>
                      if Nat.ltb i i' then star_loop (exec r1) greedy k fuel i' s' g'
                      else None) = Some b →
                 ∃ i' s' g', k i' s' g' = Some b) as Hagain.
    { intros b Hb. apply IH1 in Hb as (i1 & s1 & g1 & Hb).
      destruct (Nat.ltb i i1); [|done]. by apply IHf in Hb. }
    destruct greedy; cbn zeta in H.
    + match type of H with orelse ?x _ = _ => destruct x as [b|] eqn:E end; simpl in H.
      * inversion H; subst. by apply Hagain.
      * eauto.
    + destruct (k i s g) as [b|] eqn:E; simpl in H.
      * inversion H; subst. eauto.
      * by apply Hagain.
  - simpl in H. apply IH1 in H as (i1 & s1 & g1 & H). eauto.
  - simpl in H. destruct (exec r1 i s g _) as [g'|]; [eauto | done].
  - simpl in H. destruct s; [eauto | done].
  - simpl in H. destruct s as [|x [|y s]]; [eauto | | done].
    destruct (x =? nl)%N; [eauto | done].
Qed.

(** A match found from offset [i] on starts at [i] or later. *)
Lemma search_from_start (r : regex) (s : str) :
  ∀ i m, search_from r i s = Some m → (i ≤ m_start m)%nat.
Proof.
  induction s as [|x s IH]; intros i m H; simpl in H.
  - destruct (exec r i [] ∅ _) as [m'|] eqn:E; [|done].
    inversion H; subst. apply exec_result in E as (? & ? & ? & E).
    inversion E; subst. done.
  - destruct (exec r i (x :: s) ∅ _) as [m'|] eqn:E.
    + inversion H; subst. apply exec_result in E as (? & ? & ? & E).
      inversion E; subst. done.
    + apply IH in H. lia.
Qed.

(** Without a match, [re.sub] returns its subject. *)
Lemma sub_no_match (r : regex) repl (text : str) :
  finditer r text = [] → sub r repl text = text.
Proof. unfold sub. intros ->. done. Qed.

(** When no match starts on the first character, [re.sub] keeps it. *)
Lemma sub_keeps_first (r : regex) repl (c : char) (s : str) :
  exec r 0 (c :: s) ∅ (fun e _ g => Some (Match 0 e g)) = None →
  ∃ rest, sub r repl (c :: s) = c :: rest.
Proof.
  intros Hno. unfold sub, finditer. cbn [finditer_from search_from]. rewrite Hno.
  destruct (search_from r 1 s) as [m|] eqn:E; [|by eexists].
  apply search_from_start in E.
  cbn [sub_pieces]. unfold slice at 1.
  destruct (m_start m) as [|n]; [lia|]. simpl. by eexists.
Qed.

(** *** The remote service seen from the agents *)

Lemma attempts_none R n prompt model_name w :
  always_fails R → (attempts R n prompt model_name w).1 = None.
Proof.
  intros HR. revert w. induction n as [|n IH]; intros w; simpl; [done|].
  destruct (get_next_key (manager w)) as [[key|] m]; [|done].
  destruct (truthy key); [|done].
  unfold send. rewrite HR. apply IH.
Qed.

Lemma attempts_some R n prompt model_name w text w' :
  attempts R n prompt model_name w = (Some text, w') → ∃ i rq, R i rq = Some text.
Proof.
  revert w. induction n as [|n IH]; intros w; simpl; [done|].
  destruct (get_next_key (manager w)) as [[key|] m]; [|done].
  destruct (truthy key); [|done].
  unfold send. destruct (R _ _) as [t|] eqn:E.
  - intros H; inversion H; subst. eauto.
  - apply IH.
Qed.

(** [process_with_gemini] raises [RuntimeError] or returns a
    non-empty text that the remote service produced. *)
Lemma process_with_gemini_cases R self content_to_process w :
  (∃ w', process_with_gemini R self content_to_process w = (Raise RuntimeError, w'))
  ∨ (∃ text w' i rq,
       process_with_gemini R self content_to_process w = (Ok text, w')
       ∧ text ≠ [] ∧ R i rq = Some text).
Proof.
  unfold process_with_gemini, generate_content_with_fallback.
  destruct (attempts R _ _ _ w) as [[text|] w'] eqn:E.
  - destruct text as [|c text]; simpl; [left; eauto|].
    right. apply attempts_some in E as (i & rq & E).
    exists (c :: text), w', i, rq. done.
  - left; eauto.
Qed.

Lemma process_with_gemini_fails R self content_to_process w :
  always_fails R →
  ∃ w', process_with_gemini R self content_to_process w = (Raise RuntimeError, w').
Proof.
  intros HR.
  destruct (process_with_gemini_cases R self content_to_process w)
    as [H | (text & w' & i & rq & _ & _ & H)]; [done|].
  by rewrite HR in H.
Qed.

(** *** ObsidianFormatterAgent *)


Lemma final_review_cases R self latex w :
  ∃ text w',
    final_review R self latex w = (Ok text, w')
    ∧ ((text ≠ [] ∧ ∃ i rq, R i rq = Some text) ∨ text = tagged latex)
    ∧ (always_fails R → text = tagged latex).
Proof.
  unfold final_review, try_except.
  destruct (process_with_gemini_cases R self
              (review_request ++ content latex ++ review_request_end) w)
    as [[w' ->] | (text & w' & i & rq & -> & Hne & HR)].
  - exists (tagged latex), w'. unfold tagged, ret.
    destruct (latex_processed latex && _); rewrite ?app_nil_r; auto.
  - exists text, w'. repeat split; [left; eauto|].
    intros Hfail. by rewrite Hfail in HR.
Qed.






(** *** TranscriberExtractorAgent *)


(** The extractor always returns, whatever the remote service does:
    given what the two extraction passes yield, its result is known up
    to the bizus a remote answer may add. *)
Lemma extractor_run R self content w found1 rest1 found2 rest2 :
  extract_all bizu_pattern (remove_boilerplate content) = (found1, rest1) →
  extract_all question_pattern rest1 = (found2, rest2) →
  ∃ found w',
    TranscriberExtractorAgent_process R self content w
    = (Ok (Extracted (strip rest2) found found2), w')
    ∧ ((length rest1 ≤ 1000)%nat ∨ always_fails R → found = found1)
    ∧ ((length rest1 ≤ 1000)%nat → w' = w).
Proof.
  intros Hbizus Hquestions.
  unfold TranscriberExtractorAgent_process. rewrite Hbizus. unfold bind.
  destruct (Nat.ltb 1000 (length rest1)) eqn:Hlong.
  - apply Nat.ltb_lt in Hlong. unfold try_except, bind.
    destruct (process_with_gemini_cases R self (bizus_request ++ rest1) w)
      as [[w' Hfail] | (text & w' & i & rq & Hok & Hne & HR)].
    + rewrite Hfail. unfold ret. rewrite Hquestions.
      exists found1, w'. split; [reflexivity|]. split; [reflexivity | lia].
    + rewrite Hok. unfold ret. rewrite Hquestions.
      exists (add_ai_bizus found1 text), w'. split; [reflexivity|]. split; [|lia].
      intros [Hshort | Hfail]; [lia|]. rewrite Hfail in HR. discriminate HR.
  - unfold ret. rewrite Hquestions.
    exists found1, w. split; [reflexivity|]. split; reflexivity.
Qed.

Lemma extractor_returns R self content w :
  ∃ found w',
    TranscriberExtractorAgent_process R self content w
    = (Ok (Extracted (extracted_main_content content) found
             (extracted_questions content)), w').
Proof.
  destruct (extractor_run R self content w
              (extract_all bizu_pattern (remove_boilerplate content)).1
              (without_bizus content)
              (extracted_questions content)
              (extract_all question_pattern (without_bizus content)).2)
    as (found & w' & Hrun & _).
  - unfold without_bizus. apply surjective_pairing.
  - unfold extracted_questions. apply surjective_pairing.
  - exists found, w'. exact Hrun.
Qed.

Lemma extract_all_no_match pattern (text : str) :
  finditer pattern text = [] → extract_all pattern text = ([], text).
Proof. unfold extract_all. intros H. rewrite H. reflexivity. Qed.

(** C7, as the extractor has it. When the boilerplate rules leave the
    text as it is, the bizu pattern and the question pattern match
    nowhere in it, and no remote bizus come in (the text has at most
    1000 characters, so that none are asked for, or the remote service
    always fails), the extractor returns the text stripped of
    surrounding white space as main content, with no bizus and no
    questions; a text of at most 1000 characters leaves the pool and
    the log of requests untouched. *)
Theorem extractor_without_markers
    (R : remote) (self : EnhancedAgent) (content : str) (w : world) :
  remove_boilerplate content = content →
  finditer bizu_pattern content = [] →
  finditer question_pattern content = [] →
  (length content ≤ 1000)%nat ∨ always_fails R →
  ∃ w',
    TranscriberExtractorAgent_process R self content w
    = (Ok {| main_content := strip content; bizus := []; questions := [] |}, w')
    ∧ ((length content ≤ 1000)%nat → w' = w).
Proof.
  intros Hplain Hbizu Hquestion Hquiet.
  destruct (extractor_run R self content w [] content [] content)
    as (found & w' & Hrun & Hfound & Hw).
  - rewrite Hplain. by apply extract_all_no_match.
  - by apply extract_all_no_match.
  - exists w'. split; [|exact Hw].
    rewrite Hrun, (Hfound Hquiet). reflexivity.
Qed.

Lemma extractor_without_markers_witness :
  let content := nl :: py "  Aula 1: derivadas e integrais.  " ++ [nl] in
  let self := TranscriberExtractorAgent (Some (py "gemini-pro")) in
  let w := World (Manager [py "k1"] 0 ∅ ∅ 3 1) [] in
  strip content = py "Aula 1: derivadas e integrais."
  ∧ ∃ w',
      TranscriberExtractorAgent_process unreachable self content w
      = (Ok {| main_content := strip content; bizus := []; questions := [] |}, w')
      ∧ ((length content ≤ 1000)%nat → w' = w).
Proof.
  intros content self w. split; [by vm_compute|].
  apply (extractor_without_markers unreachable self content w).
  - by vm_compute.
  - by vm_compute.
  - by vm_compute.
  - left. vm_compute. lia.
Defined.

(** C7 as stated fails in two ways. A text without any bizu or
    question marker loses its page number to the boilerplate rules, so
    that the main content is not the stripped input. And a text of more
    than 1000 characters without markers gets the bizus the remote
    service suggests for it. *)
Lemma extractor_changes_text_without_markers :
  let self := TranscriberExtractorAgent (Some (py "gemini-pro")) in
  let w := World (Manager [py "k1"] 0 ∅ ∅ 3 1) [] in
  let paged := py "Aula 1" ++ nl :: py "Página 12" in
  let long := repeat 97%N 1001 in
  let suggests : remote := fun _ _ => Some (py "revise a aula") in
  (finditer bizu_pattern paged = [] ∧ finditer question_pattern paged = []
   ∧ contains (py "bizu") (lower paged) = false
   ∧ contains (py "questão") (lower paged) = false
   ∧ strip paged = paged
   ∧ (TranscriberExtractorAgent_process unreachable self paged w).1
     = Ok {| main_content := py "Aula 1"; bizus := []; questions := [] |})
  ∧ (finditer bizu_pattern long = [] ∧ finditer question_pattern long = []
     ∧ remove_boilerplate long = long
     ∧ (TranscriberExtractorAgent_process suggests self long w).1
       = Ok {| main_content := long;
               bizus := [py "Bizu: revise a aula"];
               questions := [] |}).
Proof.
  intros self w paged long suggests.
  repeat split; vm_compute; reflexivity.
Qed.

(** *** StructurerVisualizerAgent *)

(** Every step of the structurer returns, whatever the remote service
    does, and only adds text after what it was given. *)
Lemma main_section_extends R self main_content sc w :
  ∃ out w', main_section R self main_content sc w = (Ok out, w') ∧ sc `prefix_of` out.
Proof.
  unfold main_section. destruct (truthy main_content).
  - destruct (Nat.ltb 500 (length main_content)).
    + unfold try_except, bind.
      destruct (process_with_gemini_cases R self
                  (structure_request ++ main_content ++ structure_request_end) w)
        as [[w' Hfail] | (text & w' & i & rq & Hok & _)].
      * rewrite Hfail. eexists _, _. split; [reflexivity | extends].
      * rewrite Hok. eexists _, _. split; [reflexivity | extends].
    + eexists _, _. split; [reflexivity | extends].
  - eexists _, _. split; [reflexivity | extends].
Qed.

Lemma bizu_callouts_extends bizus : ∀ i sc, sc `prefix_of` bizu_callouts i bizus sc.
Proof.
  induction bizus as [|bizu rest IH]; intros i sc; cbn [bizu_callouts]; [reflexivity|].
  etransitivity; [|apply IH]. extends.
Qed.

Lemma bizus_section_extends bizus sc : sc `prefix_of` bizus_section bizus sc.
Proof.
  unfold bizus_section. destruct bizus; [reflexivity|].
  etransitivity; [|apply bizu_callouts_extends]. extends.
Qed.

Lemma format_question_by_hand_extends i question_text sc :
  sc `prefix_of` format_question_by_hand i question_text sc.
Proof.
  unfold format_question_by_hand.
  destruct (search question_parts question_text); extends.
Qed.

Lemma format_questions_extends R self questions :
  ∀ i sc w,
    ∃ out w', format_questions R self i questions sc w = (Ok out, w') ∧ sc `prefix_of` out.
Proof.
  induction questions as [|question_text rest IH]; intros i sc w; cbn [format_questions].
  - eexists _, _. split; [reflexivity | reflexivity].
  - unfold bind at 1. unfold try_except, bind.
    destruct (process_with_gemini_cases R self
                (question_request ++ question_text ++ question_request_end) w)
      as [[w' Hfail] | (text & w' & j & rq & Hok & _)].
    + rewrite Hfail. unfold ret at 1.
      destruct (IH (S i) (format_question_by_hand i question_text sc) w')
        as (out & w'' & Hrest & Hpre).
      exists out, w''. split; [exact Hrest|].
      etransitivity; [apply format_question_by_hand_extends | exact Hpre].
    + rewrite Hok. unfold ret at 1.
      match goal with
      | |- ∃ _ _, format_questions R self (S i) rest ?sc' w' = _ ∧ _ =>
          destruct (IH (S i) sc' w') as (result & wend & Hrest & Hpre)
      end.
      exists result, wend. split; [exact Hrest|].
      etransitivity; [|exact Hpre]. extends.
Qed.

Lemma questions_section_extends R self questions sc w :
  ∃ out w', questions_section R self questions sc w = (Ok out, w') ∧ sc `prefix_of` out.
Proof.
  unfold questions_section. destruct questions as [|q qs].
  - eexists _, _. split; reflexivity.
  - match goal with
    | |- ∃ _ _, format_questions R self 1 ?l ?sc' w = _ ∧ _ =>
        destruct (format_questions_extends R self l 1%nat sc' w)
          as (result & wend & Hrun & Hpre)
    end.
    exists result, wend. split; [exact Hrun|].
    etransitivity; [|exact Hpre]. extends.
Qed.

Lemma diagram_section_extends R self main_content sc w :
  ∃ out w', diagram_section R self main_content sc w = (Ok out, w') ∧ sc `prefix_of` out.
Proof.
  unfold diagram_section, try_except, bind.
  destruct (process_with_gemini_cases R self
              (diagram_request ++ take 1000 main_content ++ diagram_request_end) w)
    as [[w' Hfail] | (text & w' & i & rq & Hok & _)].
  - rewrite Hfail. eexists _, _. split; reflexivity.
  - rewrite Hok.
    destruct (contains (py "mermaid") (lower text)
              && negb (contains (py "nenhum") (lower text))).
    + eexists _, _. split; [reflexivity | extends].
    + eexists _, _. split; reflexivity.
Qed.

(** The structurer always returns a text that begins with its title
    line, and the math flag of the main content. *)
Lemma structurer_returns R self main found questions w :
  ∃ rest w',
    StructurerVisualizerAgent_process R self (Extracted main found questions) w
    = (Ok (Structured (35%N :: rest) (mentions_math main)), w').
Proof.
  unfold StructurerVisualizerAgent_process.
  cbn [main_content bizus Agents.questions].
  set (title := py "# Conteúdo Estruturado" ++ [nl; nl]).
  destruct (main_section_extends R self main title w)
    as (sc1 & w1 & Hmain & Hpre1).
  destruct (questions_section_extends R self questions
              (bizus_section found sc1) w1)
    as (sc2 & w2 & Hquestions & Hpre2).
  destruct (diagram_section_extends R self main sc2 w2)
    as (sc3 & w3 & Hdiagram & Hpre3).
  assert (title `prefix_of` sc3) as [tail Htail].
  { etransitivity; [exact Hpre1|]. etransitivity; [apply bizus_section_extends|].
    etransitivity; [exact Hpre2 | exact Hpre3]. }
  assert (∃ t, title = 35%N :: t) as [t Ht] by (eexists; vm_compute; reflexivity).
  exists (t ++ tail), w3.
  unfold bind. rewrite Hmain, Hquestions, Hdiagram. unfold ret.
  rewrite Htail, Ht. reflexivity.
Qed.

(** *** LatexExpertAgent and ObsidianFormatterAgent when the remote
    service always fails *)

Lemma latex_expert_degraded R self rest w :
  always_fails R →
  ∃ body w',
    LatexExpertAgent_process R self (Structured (35%N :: rest) true) w
    = (Ok (Latex ((35%N :: body) ++ math_notice) true), w').
Proof.
  intros HR. unfold LatexExpertAgent_process.
  cbn [structured_content has_math]. unfold bind at 1 2. unfold try_except.
  destruct (process_with_gemini_fails R self
              (latex_request ++ (35%N :: rest) ++ latex_request_end) w HR)
    as [w' Hfail].
  rewrite Hfail. unfold ret.
  destruct (sub_keeps_first inline_math inline_template 35%N rest) as [r1 H1];
    [vm_compute; reflexivity|].
  rewrite H1.
  destruct (sub_keeps_first block_math block_template 35%N r1) as [r2 H2];
    [vm_compute; reflexivity|].
  rewrite H2. exists r2, w'. reflexivity.
Qed.

Lemma startswith_title_line (s : str) : startswith (35%N :: s) (py "---") = false.
Proof. vm_compute. reflexivity. Qed.

Lemma formatter_degraded R time self body w :
  always_fails R →
  let latex := Latex ((35%N :: body) ++ math_notice) true in
  ∃ w',
    ObsidianFormatterAgent_process R time self latex w
    = (match time with
       | Some today => Ok (metadata today ++ tagged latex)
       | None => Raise NameError
       end, w').
Proof.
  intros HR latex.
  destruct (final_review_cases R self latex w) as (text & w' & Hrev & _ & Htext).
  rewrite (Htext HR) in Hrev.
  exists w'. unfold ObsidianFormatterAgent_process, bind. rewrite Hrev.
  unfold add_metadata.
  assert (startswith (tagged latex) (py "---") = false) as ->.
  { unfold tagged, latex. cbn [content latex_processed].
    match goal with
    | |- startswith (((35%N :: body) ++ math_notice) ++ ?tail) _ = false =>
        change (startswith (35%N :: ((body ++ math_notice) ++ tail)) (py "---") = false)
    end.
    apply startswith_title_line. }
  destruct time as [today|]; reflexivity.
Qed.

(** The four agents when the remote service always fails and the
    main content mentions math: the note is the degraded text under a
    metadata header when [time] is bound, and [NameError] escapes when
    it is not. *)
Lemma agents_degraded R time raw_content transcriber structurer latex_expert formatter w :
  always_fails R →
  mentions_math (extracted_main_content raw_content) = true →
  ∃ body w',
    (let* extracted := TranscriberExtractorAgent_process R transcriber raw_content in
     let* structured := StructurerVisualizerAgent_process R structurer extracted in
     let* latex := LatexExpertAgent_process R latex_expert structured in
     ObsidianFormatterAgent_process R time formatter latex) w
    = (match time with
       | Some today =>
           Ok (metadata today ++ tagged (Latex ((35%N :: body) ++ math_notice) true))
       | None => Raise NameError
       end, w').
Proof.
  intros HR Hmath.
  destruct (extractor_returns R transcriber raw_content w) as (found & w1 & H1).
  destruct (structurer_returns R structurer (extracted_main_content raw_content) found
              (extracted_questions raw_content) w1) as (rest & w2 & H2).
  rewrite Hmath in H2.
  destruct (latex_expert_degraded R latex_expert rest w2 HR) as (body & w3 & H3).
  destruct (formatter_degraded R time formatter body w3 HR) as (w4 & H4).
  exists body, w4. unfold bind. rewrite H1, H2, H3. exact H4.
Qed.

Lemma run_agents_degraded R time raw_content model_names w :
  always_fails R →
  mentions_math (extracted_main_content raw_content) = true →
  ∃ body w',
    run_agents R time raw_content model_names w
    = (match time with
       | Some today =>
           Ok (metadata today ++ tagged (Latex ((35%N :: body) ++ math_notice) true))
       | None => Raise NameError
       end, w').
Proof. intros HR Hmath. unfold run_agents. by apply agents_degraded. Qed.

Lemma startswith_refl (p : str) : startswith p p = true.
Proof. rewrite <- (app_nil_r p) at 1. apply startswith_self_app. Qed.

Lemma metadata_starts today : ∃ t, metadata today = 45%N :: t.
Proof. eexists. vm_compute. reflexivity. Qed.

(** C5, as the pipeline has it. Let every remote request fail, let the
    file run as a script (so that [time] is bound and gives today's
    date), and let the main content the extractor keeps mention math.
    Then, for a pool with at least one credential, the pipeline returns
    a note and raises nothing: the note is the metadata header, a body,
    the math notice, and then the basic tag block exactly when the body
    and the notice contain no [tags:] in any letter case. So the note is
    not empty and contains the math notice, and it contains the tag
    block whenever the text had no [tags:] of its own. *)
Theorem degraded_math_note
    (R : remote) (today raw_content : str) (api_keys : list str)
    (model_names : option (gmap str str)) :
  api_keys ≠ [] →
  always_fails R →
  mentions_math (extracted_main_content raw_content) = true →
  ∃ body w',
    let text := body ++ math_notice in
    let note :=
      metadata today ++ text
        ++ (if contains (py "tags:") (lower text) then [] else fallback_tags) in
    process_content_with_enhanced_agents R (Some today) raw_content api_keys model_names
    = (Ok note, Some w')
    ∧ note ≠ []
    ∧ contains math_notice note = true
    ∧ (contains (py "tags:") (lower text) = false → contains fallback_tags note = true).
Proof.
  intros Hkeys HR Hmath.
  unfold process_content_with_enhanced_agents.
  destruct api_keys as [|key keys]; [done|]. cbn [__init__].
  match goal with
  | |- context [run_agents R (Some today) raw_content ?names ?w] =>
      destruct (run_agents_degraded R (Some today) raw_content names w HR Hmath)
        as (body & w' & Hrun)
  end.
  exists (35%N :: body), w'. cbn zeta. rewrite Hrun.
  unfold tagged. cbn [content latex_processed].
  destruct (contains (py "tags:") (lower ((35%N :: body) ++ math_notice))) eqn:Htags;
    cbn [andb negb].
  - split; [reflexivity|]. split; [|split].
    + destruct (metadata_starts today) as [t ->]. discriminate.
    + apply contains_app_r, contains_app_l, contains_app_r, contains_here, startswith_refl.
    + discriminate.
  - split; [reflexivity|]. split; [|split].
    + destruct (metadata_starts today) as [t ->]. discriminate.
    + apply contains_app_r, contains_app_l, contains_app_r, contains_here, startswith_refl.
    + intros _. apply contains_app_r, contains_app_r, contains_here, startswith_refl.
Qed.

Lemma degraded_math_note_witness :
  let today := py "2024-05-01" in
  let raw_content := py "A fórmula de Bhaskara resolve $ax^2+bx+c=0$." in
  let api_keys := [py "k1"; py "k2"] in
  mentions_math (extracted_main_content raw_content) = true
  ∧ ∃ body w',
      let text := body ++ math_notice in
      let note :=
        metadata today ++ text
          ++ (if contains (py "tags:") (lower text) then [] else fallback_tags) in
      process_content_with_enhanced_agents unreachable (Some today) raw_content
        api_keys None
      = (Ok note, Some w')
      ∧ note ≠ []
      ∧ contains math_notice note = true
      ∧ (contains (py "tags:") (lower text) = false → contains fallback_tags note = true).
Proof.
  intros today raw_content api_keys.
  assert (mentions_math (extracted_main_content raw_content) = true) as Hmath
    by (vm_compute; reflexivity).
  split; [exact Hmath|].
  apply (degraded_math_note unreachable today raw_content api_keys None).
  - discriminate.
  - intros n rq. reflexivity.
  - exact Hmath.
Defined.

(** C5 as stated fails for a text that has a [tags:] of its own: run
    as a script with every remote request failing, the pipeline returns
    a note with the math notice but without the basic tag block. *)
Lemma degraded_note_without_tag_block :
  let today := py "2024-05-01" in
  let raw_content := py "tags: $x$" in
  let run :=
    process_content_with_enhanced_agents unreachable (Some today) raw_content
      [py "k1"] None in
  mentions_math (extracted_main_content raw_content) = true
  ∧ ∃ note, run.1 = Ok note
      ∧ contains math_notice note = true
      ∧ contains fallback_tags note = false.
Proof.
  intros today raw_content run. split; [vm_compute; reflexivity|].
  eexists. split; [vm_compute; reflexivity|].
  split; vm_compute; reflexivity.
Qed.

(** The same pipeline on an imported module, where [time] is unbound:
    the formatter reaches [time.strftime] and [NameError] escapes. *)
Lemma degraded_math_note_needs_time
    (R : remote) (raw_content : str) (api_keys : list str)
    (model_names : option (gmap str str)) :
  api_keys ≠ [] →
  always_fails R →
  mentions_math (extracted_main_content raw_content) = true →
  ∃ w',
    process_content_with_enhanced_agents R None raw_content api_keys model_names
    = (Raise NameError, Some w').
Proof.
  intros Hkeys HR Hmath.
  unfold process_content_with_enhanced_agents.
  destruct api_keys as [|key keys]; [done|]. cbn [__init__].
  match goal with
  | |- context [run_agents R None raw_content ?names ?w] =>
      destruct (run_agents_degraded R None raw_content names w HR Hmath)
        as (body & w' & Hrun)
  end.
  exists w'. rewrite Hrun. reflexivity.
Qed.

(** ** Further properties of the pool *)

(** X1. Whatever the state of the manager, [get_next_key] returns
    [None] only when no credential is configured; a credential it
    returns is one of the configured ones, and in the state the call
    leaves it is available and not quarantined. *)
Theorem handed_out_key_is_available (m : GeminiAPIManager) :
  match get_next_key m with
  | (Some key, m') =>
      key ∈ api_keys m ∧ key ∈ available_keys m' ∧ key ∉ failed_keys m'
  | (None, m') => api_keys m = [] ∧ failed_keys m' = ∅ ∧ retry_count m' = ∅
  end.
Proof.
  destruct (decide (api_keys m = [])) as [Hempty|Hne].
  - rewrite (get_next_key_empty m Hempty). done.
  - destruct (get_next_key_some m Hne) as (key & Hret & Hin & Hav & Hreset).
    destruct (get_next_key m) as [ret m'] eqn:E. simpl in Hret. subst ret.
    simpl in Hav, Hreset.
    destruct (decide (available_keys m = [])) as [Hnone|Hsome].
    + rewrite (Hreset Hnone). split; [done|].
      rewrite (available_keys_all (set_index (reset m) _)) by done.
      split; [done|]. simpl. apply not_elem_of_empty.
    + destruct (Hav Hsome) as [Havail ->]. split; [done|].
      change (available_keys (set_index m _)) with (available_keys m).
      split; [done|]. by apply available_keys_subset in Havail as [_ ?].
Qed.

(** Calls of [get_next_key] in a row add up. *)
Lemma next_keys_app (a b : nat) (m : GeminiAPIManager) :
  next_keys (a + b) m =
    ((next_keys a m).1 ++ (next_keys b (next_keys a m).2).1,
     (next_keys b (next_keys a m).2).2).
Proof.
  revert m. induction a as [|a IH]; intros m; simpl.
  - by destruct (next_keys b m).
  - destruct (get_next_key m) as [key m1]. rewrite IH.
    destruct (next_keys a m1) as [l1 m2]. simpl.
    by destruct (next_keys b m2).
Qed.

(** With some credential available, [j] calls from cursor [i] return
    the available credentials of the positions [i], ..., [i + j - 1]. *)
Lemma next_keys_available (m : GeminiAPIManager) (j i : nat) :
  let av := available_keys m in
  (i + j ≤ length av)%nat → (i < length av)%nat →
  next_keys j (set_index m (Z.of_nat i)) =
    (Some <$> take j (drop i av),
     set_index m (Z.of_nat (i + j) `mod` Z.of_nat (length av))).
Proof.
  intros av. revert i. induction j as [|j IH]; intros i Hij Hi.
  - simpl. rewrite Nat.add_0_r, Z.mod_small by lia. done.
  - cbn [next_keys].
    assert (available_keys (set_index m (Z.of_nat i)) = av) as Hav by reflexivity.
    rewrite get_next_key_available by (rewrite Hav; destruct av; simpl in *; [lia | done]).
    rewrite Hav. cbn [current_key_index set_index].
    rewrite (Z.mod_small (Z.of_nat i)) by lia. rewrite Nat2Z.id.
    destruct (lookup_lt_is_Some_2 av i Hi) as [key Hkey]. rewrite Hkey.
    destruct (decide (i + 1 = length av)%nat) as [Hlast|Hmore].
    + assert (j = 0%nat) as -> by lia. simpl.
      replace (Z.of_nat i + 1) with (Z.of_nat (i + 1)) by lia.
      rewrite (drop_S _ _ _ Hkey). done.
    + replace ((Z.of_nat i + 1) `mod` Z.of_nat (length av)) with (Z.of_nat (S i))
        by (rewrite Z.mod_small; lia).
      change (set_index (set_index m (Z.of_nat i)) (Z.of_nat (S i)))
        with (set_index m (Z.of_nat (S i))).
      rewrite IH by lia.
      rewrite (drop_S _ _ _ Hkey). simpl.
      replace (S (i + j)) with (i + S j)%nat by lia. done.
Qed.

(** X2. Rotation over the available credentials. When some credential
    is available and the cursor [c] lies within the available list, as
    many [get_next_key] calls as there are available credentials return
    each of them once, starting with the one under the cursor and
    wrapping round, skip every quarantined one, and leave the manager
    as it was. *)
Theorem rotation_over_available (m : GeminiAPIManager) (c : nat) :
  current_key_index m = Z.of_nat c →
  (c < length (available_keys m))%nat →
  next_keys (length (available_keys m)) m
  = (Some <$> (drop c (available_keys m) ++ take c (available_keys m)), m).
Proof.
  intros Hc Hlt.
  assert (set_index m (Z.of_nat c) = m) as Hm
    by (destruct m; simpl in *; by rewrite Hc).
  pose proof (next_keys_available m (length (available_keys m) - c) c) as Hfirst.
  pose proof (next_keys_available m c 0) as Hsecond.
  cbv zeta in Hfirst, Hsecond.
  generalize dependent (available_keys m). intros av Hlt Hfirst Hsecond.
  replace (length av) with ((length av - c) + c)%nat at 1 by lia.
  rewrite next_keys_app. rewrite <- Hm at 1 2 3.
  rewrite Hfirst by lia. cbn [fst snd].
  replace (c + (length av - c))%nat with (length av) by lia.
  rewrite Z.mod_same by lia.
  change (set_index m 0) with (set_index m (Z.of_nat 0)).
  rewrite Hsecond by lia. cbn [fst snd].
  rewrite drop_0, Nat.add_0_l, Z.mod_small by lia.
  rewrite Hm, fmap_app.
  rewrite (take_ge (drop c av)) by (rewrite length_drop; lia). done.
Qed.

Lemma rotation_over_available_witness :
  let m := Manager [py "k1"; py "k2"; py "k3"; py "k4"] 1 {[py "k2"]}
             {[py "k2" := 3]} 3 1 in
  next_keys (length (available_keys m)) m
  = (Some <$> (drop 1 (available_keys m) ++ take 1 (available_keys m)), m)
  ∧ available_keys m = [py "k1"; py "k3"; py "k4"].
Proof.
  intros m. split.
  - apply (rotation_over_available m 1); [reflexivity|].
    vm_compute. lia.
  - vm_compute. reflexivity.
Defined.

(** [create_model] runs the loop of [generate_content_with_fallback]
    on the prompt [Teste] and returns the model in place of the text. *)
Lemma create_model_loop_attempts R n model_name : ∀ w,
  create_model_loop R n model_name w =
    (match (attempts R n (py "Teste") model_name w).1 with
     | Some _ => Some model_name
     | None => None
     end, (attempts R n (py "Teste") model_name w).2).
Proof.
  induction n as [|n IH]; intros w; cbn [create_model_loop attempts]; [done|].
  destruct (get_next_key (manager w)) as [[key|] m]; [|done].
  destruct (truthy key); [|done].
  destruct (send R _ _) as [[text|] w']; [done|]. apply IH.
Qed.

Lemma well_counted_empty keys i mr rd :
  0 < mr → well_counted (Manager keys i ∅ ∅ mr rd).
Proof.
  intros Hmr. split; [done|]. split; intros key; unfold failures; simpl;
    rewrite lookup_empty; simpl; [|done].
  split; [lia|]. split; [by intros ?%not_elem_of_empty | lia].
Qed.

Lemma well_counted_next m : well_counted m → well_counted (get_next_key m).2.
Proof.
  intros Hm. pose proof Hm as (Hmax & _ & _).
  destruct (decide (api_keys m = [])) as [Hempty|Hne].
  - rewrite (get_next_key_empty m Hempty). by apply well_counted_empty.
  - destruct (get_next_key_some m Hne) as (ret & _ & _ & Hav & Hreset).
    destruct (decide (available_keys m = [])) as [Hnone|Hsome].
    + rewrite (Hreset Hnone). by apply well_counted_empty.
    + destruct (Hav Hsome) as [_ ->]. exact Hm.
Qed.

Lemma well_counted_mark key m :
  well_counted m → key ∉ failed_keys m → well_counted (mark_key_failed key m).
Proof.
  intros (Hmax & Hcount & Hpos) Hfree.
  assert (failures m key < max_retries m) as Hbelow.
  { destruct (Hcount key) as [_ Hiff].
    destruct (decide (max_retries m ≤ failures m key)) as [Hge|]; [|lia].
    by apply Hiff in Hge. }
  split; [done|]. split.
  - intros other. change (max_retries (mark_key_failed key m)) with (max_retries m).
    rewrite failed_keys_mark.
    destruct (decide (other = key)) as [->|Hne].
    + rewrite failures_mark_same. split; [lia|]. split.
      * intros [Hold | [_ Hge]]; [done | lia].
      * intros Hge. right. split; [done | lia].
    + rewrite failures_mark_other by done.
      destruct (Hcount other) as [Hle Hiff]. split; [done|]. split.
      * intros [Hold | [Heq _]]; [by apply Hiff | done].
      * intros Hge. left. by apply Hiff.
  - intros other. destruct (decide (other = key)) as [->|Hne].
    + rewrite failures_mark_same. specialize (Hpos key). lia.
    + rewrite failures_mark_other by done. apply Hpos.
Qed.

(** A credential that [get_next_key] returns is not quarantined
    afterwards. *)
Lemma get_next_key_free m key m' :
  get_next_key m = (Some key, m') → key ∉ failed_keys m'.
Proof.
  intros Hcall.
  destruct (decide (api_keys m = [])) as [Hempty|Hne];
    [by rewrite (get_next_key_empty m Hempty) in Hcall|].
  destruct (get_next_key_some m Hne) as (key' & Hret & _ & Hav & Hreset).
  rewrite Hcall in Hret, Hav, Hreset. simpl in *. inversion Hret; subst key'.
  destruct (decide (available_keys m = [])) as [Hnone|Hsome].
  - rewrite (Hreset Hnone). simpl. apply not_elem_of_empty.
  - destruct (Hav Hsome) as [Hin ->]. simpl.
    by apply available_keys_subset in Hin as [_ ?].
Qed.

Lemma well_counted_attempts R n prompt model_name : ∀ w,
  well_counted (manager w) →
  well_counted (manager (attempts R n prompt model_name w).2).
Proof.
  induction n as [|n IH]; intros w Hw; cbn [attempts]; [done|].
  pose proof (well_counted_next _ Hw) as Hnext.
  destruct (get_next_key (manager w)) as [[key|] m] eqn:Hcall; [|done].
  apply get_next_key_free in Hcall. simpl in Hnext.
  destruct (truthy key); [|done].
  unfold send; simpl. destruct (R _ _); [done|].
  apply IH. simpl. by apply well_counted_mark.
Qed.

Lemma well_counted_step m m' : client_step m m' → well_counted m → well_counted m'.
Proof.
  destruct 1; intros Hm.
  - by apply well_counted_next.
  - done.
  - by apply well_counted_attempts.
  - unfold create_model. rewrite create_model_loop_attempts. cbn [snd].
    by apply well_counted_attempts.
Qed.

Lemma client_step_is_step m m' : client_step m m' → step m m'.
Proof. destruct 1; constructor. Qed.

Lemma well_counted_steps m m' :
  rtc client_step m m' → well_counted m → well_counted m' ∧ rtc step m m'.
Proof.
  induction 1 as [m|m m1 m2 Hstep _ IH]; intros Hm; [by split|].
  destruct (IH (well_counted_step _ _ Hstep Hm)) as [H2 Hrest].
  split; [done|]. eapply rtc_l; [by apply client_step_is_step | done].
Qed.

(** X3. As long as the manager is used through [get_next_key],
    [get_status], [generate_content_with_fallback] and [create_model]
    (as the agents and the pipeline use it), no failure counter ever
    leaves the range from 0 to the threshold 3, and the quarantined
    credentials are exactly those whose counter is 3: a quarantined
    credential is never tried or counted again before the next reset. *)
Theorem counters_stop_at_threshold (keys : list str) (m0 m : GeminiAPIManager) :
  __init__ keys = Ok m0 → rtc client_step m0 m →
  max_retries m = 3
  ∧ counted m
  ∧ ∀ key, 0 ≤ failures m key ≤ 3 ∧ (key ∈ failed_keys m ↔ failures m key = 3).
Proof.
  intros Hinit Hsteps.
  assert (well_counted m0) as H0
    by (apply init_ok in Hinit as [_ ->]; by apply well_counted_empty).
  destruct (well_counted_steps _ _ Hsteps H0) as [(_ & Hcount & Hpos) Hall].
  destruct (reachable_constants _ _ _ Hinit Hall) as (_ & _ & Hmax).
  split; [done|]. split; [done|]. intros key.
  destruct (Hcount key) as [Hle Hiff]. specialize (Hpos key). rewrite Hmax in *.
  split; [lia|]. rewrite Hiff. lia.
Qed.

Lemma counters_stop_at_threshold_witness :
  let keys := [py "k1"] in
  let m0 := Manager keys 0 ∅ ∅ 3 1 in
  let m :=
    manager (generate_content_with_fallback unreachable (py "p") None (Some 7)
               (World m0 [])).2 in
  failures m (py "k1") = 1
  ∧ max_retries m = 3
  ∧ counted m
  ∧ ∀ key, 0 ≤ failures m key ≤ 3 ∧ (key ∈ failed_keys m ↔ failures m key = 3).
Proof.
  intros keys m0 m. split; [vm_compute; reflexivity|].
  apply (counters_stop_at_threshold keys m0 m); [reflexivity|].
  eapply rtc_l; [|apply rtc_refl].
  apply (client_generate unreachable (py "p") None (Some 7) (World m0 [])).
Defined.

(** Counting the credentials of a list without repetition that are
    outside a set of some of them. *)
Lemma count_outside (l : list str) (F : gset str) :
  NoDup l → (∀ key, key ∈ F → key ∈ l) →
  (length (filter (fun key => key ∉ F) l) + size F = length l)%nat.
Proof.
  intros Hnd Hsub.
  assert (elements F ≡ₚ filter (fun key => key ∈ F) l) as Hperm.
  { apply NoDup_Permutation; [apply NoDup_elements | by apply NoDup_filter |].
    intros key. rewrite elem_of_elements, list_elem_of_filter. split.
    - intros Hkey. split; [done | by apply Hsub].
    - by intros [Hkey _]. }
  pose proof (Permutation_length (filter_app_complement (fun key => key ∈ F) l)) as Hlen.
  pose proof (Permutation_length Hperm) as Hsize.
  rewrite length_app in Hlen. unfold size, set_size. simpl. lia.
Qed.

(** X4. [get_status] only reads the manager. Its total is the number
    of configured credentials and its counters are those of the manager;
    the number it reports as available is the total minus the size of
    the quarantine set, which is the number of credentials
    [get_next_key] can choose from whenever the configured credentials
    are pairwise different and only configured credentials are
    quarantined. *)
Theorem status_is_a_faithful_read (m : GeminiAPIManager) :
  NoDup (api_keys m) →
  (∀ key, key ∈ failed_keys m → key ∈ api_keys m) →
  (get_status m).2 = m
  ∧ total_keys (get_status m).1 = Z.of_nat (length (api_keys m))
  ∧ st_failed_keys (get_status m).1 = Z.of_nat (size (failed_keys m))
  ∧ st_available_keys (get_status m).1 = Z.of_nat (length (available_keys m))
  ∧ st_current_key_index (get_status m).1 = current_key_index m
  ∧ retry_counts (get_status m).1 = retry_count m.
Proof.
  intros Hnd Hsub. repeat split.
  pose proof (count_outside (api_keys m) (failed_keys m) Hnd Hsub) as Hcount.
  unfold available_keys. simpl. lia.
Qed.

Lemma status_is_a_faithful_read_witness :
  let m := Manager [py "k1"; py "k2"; py "k3"] 2 {[py "k2"]} {[py "k2" := 3]} 3 1 in
  st_available_keys (get_status m).1 = 2
  ∧ (get_status m).2 = m
  ∧ total_keys (get_status m).1 = Z.of_nat (length (api_keys m))
  ∧ st_failed_keys (get_status m).1 = Z.of_nat (size (failed_keys m))
  ∧ st_available_keys (get_status m).1 = Z.of_nat (length (available_keys m))
  ∧ st_current_key_index (get_status m).1 = current_key_index m
  ∧ retry_counts (get_status m).1 = retry_count m.
Proof.
  intros m. split; [vm_compute; reflexivity|].
  apply (status_is_a_faithful_read m).
  - by_evaluation.
  - intros key Hkey. cbn [m failed_keys] in Hkey.
    apply elem_of_singleton in Hkey as ->. by_evaluation.
Defined.

(** *** The requests of the fallback loop *)

Lemma get_next_key_in m key m' :
  get_next_key m = (Some key, m') → key ∈ api_keys m.
Proof.
  intros Hcall.
  destruct (decide (api_keys m = [])) as [Hempty|Hne];
    [by rewrite (get_next_key_empty m Hempty) in Hcall|].
  destruct (get_next_key_some m Hne) as (key' & Hret & Hin & _).
  rewrite Hcall in Hret. simpl in Hret. by inversion Hret; subst.
Qed.

(** What one run of the loop sends and how it ends: at most [n]
    requests, each with the prompt, the model and a non-empty configured
    credential; a text comes from the last request, after failures of
    all the others; no text means that every request failed. *)
Lemma attempts_trace R n prompt model_name : ∀ w,
  ∃ new,
    sent (attempts R n prompt model_name w).2 = sent w ++ new
    ∧ (length new ≤ n)%nat
    ∧ Forall (fun rq => rq_prompt rq = prompt ∧ rq_model rq = model_name
                        ∧ rq_key rq ∈ api_keys (manager w) ∧ rq_key rq ≠ []) new
    ∧ match (attempts R n prompt model_name w).1 with
      | Some text =>
          ∃ old rq, new = old ++ [rq]
            ∧ R (length (sent w ++ old)) rq = Some text
            ∧ ∀ i rq', old !! i = Some rq' → R (length (sent w) + i)%nat rq' = None
      | None =>
          ∀ i rq', new !! i = Some rq' → R (length (sent w) + i)%nat rq' = None
      end.
Proof.
  induction n as [|n IH]; intros w; cbn [attempts].
  { exists []. rewrite app_nil_r. repeat split; [done | constructor | done]. }
  destruct (get_next_key (manager w)) as [[key|] m1] eqn:Hcall;
    [|exists []; rewrite app_nil_r; repeat split; [simpl; lia | constructor | done]].
  pose proof (get_next_key_in _ _ _ Hcall) as Hin.
  pose proof (get_next_key_constants (manager w)) as [Hkeys _].
  rewrite Hcall in Hkeys. simpl in Hkeys.
  destruct (truthy key) eqn:Htrue;
    [|exists []; rewrite app_nil_r; repeat split; [simpl; lia | constructor | done]].
  assert (key ≠ []) as Hkey by (by destruct key).
  unfold send. cbn [with_manager sent manager].
  destruct (R (length (sent w)) (Request key model_name prompt)) as [text|] eqn:HR.
  - exists [Request key model_name prompt]. cbn [fst snd sent].
    split; [done|]. split; [simpl; lia|]. split; [by repeat constructor|].
    exists [], (Request key model_name prompt).
    rewrite app_nil_r. split; [done|]. split; [done|]. intros i rq' Hi. done.
  - unfold with_manager. cbn [sent manager].
    match goal with
    | |- context [attempts R n prompt model_name ?w2] =>
        destruct (IH w2) as (new & Hsent & Hlen & Hall & Hend)
    end.
    cbn [sent manager] in Hsent, Hall, Hend.
    exists (Request key model_name prompt :: new).
    rewrite Hsent, <- app_assoc. split; [done|]. split; [simpl; lia|]. split.
    { constructor; [done|]. eapply Forall_impl; [exact Hall|].
      intros rq (? & ? & Hk & ?). repeat split; try done.
      change (api_keys (mark_key_failed key m1)) with (api_keys m1) in Hk.
      by rewrite Hkeys in Hk. }
    rewrite length_app in Hend. cbn [length] in Hend.
    destruct (attempts R n prompt model_name _).1 as [text|].
    + destruct Hend as (old & rq & -> & Hlast & Hold).
      exists (Request key model_name prompt :: old), rq. split; [done|]. split.
      * rewrite <- Hlast. f_equal. rewrite !length_app. simpl. lia.
      * intros [|i] rq' Hi; simpl in Hi.
        -- inversion Hi; subst. by rewrite Nat.add_0_r.
        -- rewrite <- (Hold i rq' Hi). f_equal. lia.
    + intros [|i] rq' Hi; simpl in Hi.
      * inversion Hi; subst. by rewrite Nat.add_0_r.
      * rewrite <- (Hend i rq' Hi). f_equal. lia.
Qed.


(** X6. [generate_content_with_fallback] stops at the first success.
    When it returns a text, that text is the answer to the last request
    it sent and every request it sent before failed; when it returns
    [None], every request it sent failed. *)
Theorem fallback_stops_at_first_success
    (R : remote) (prompt : str) (model_name : option str)
    (max_attempts : option Z) (w : world) :
  let run := generate_content_with_fallback R prompt model_name max_attempts w in
  ∃ new,
    sent run.2 = sent w ++ new
    ∧ match run.1 with
      | Some text =>
          ∃ old rq, new = old ++ [rq]
            ∧ R (length (sent w ++ old)) rq = Some text
            ∧ ∀ i rq', old !! i = Some rq' → R (length (sent w) + i)%nat rq' = None
      | None =>
          ∀ i rq', new !! i = Some rq' → R (length (sent w) + i)%nat rq' = None
      end.
Proof.
  intros run. unfold run, generate_content_with_fallback.
  match goal with
  | |- context [attempts R ?n prompt model_name w] =>
      destruct (attempts_trace R n prompt model_name w) as (new & Hsent & _ & _ & Hend)
  end.
  exists new. by split.
Qed.



(** X9. [ensure_model] with a model already held returns at once and
    sends nothing. Without one it runs [create_model] and keeps what
    that returns; it raises [RuntimeError], leaving the agent without a
    model, exactly when [create_model] gives none, as it does when the
    remote service always fails. After a successful call a further
    call changes nothing. *)
Theorem ensure_model_outcomes
    (R : remote) (self : EnhancedAgent) (model : option (option str)) (w : world) :
  let run := ensure_model R self model w in
  (∀ held, model = Some held → run = (Ok tt, model, w))
  ∧ (model = None → (run.1.2, run.2) = create_model R (model_name self) w)
  ∧ (run.1.1 = Ok tt ∧ run.1.2 ≠ None ∨ run.1.1 = Raise RuntimeError ∧ run.1.2 = None)
  ∧ (run.1.1 = Ok tt → ensure_model R self run.1.2 run.2 = run)
  ∧ (always_fails R → model = None → run.1.1 = Raise RuntimeError).
Proof.
  intros run. unfold run, ensure_model.
  destruct model as [held|].
  - split; [done|]. split; [done|]. split; [by left|]. split; done.
  - split; [done|].
    assert (always_fails R → (create_model R (model_name self) w).1 = None) as Hfail.
    { intros HR. unfold create_model. rewrite create_model_loop_attempts.
      cbn [fst]. by rewrite attempts_none. }
    destruct (create_model R (model_name self) w) as [[held|] w'] eqn:Hcreate;
      cbn [fst snd] in *.
    + split; [done|]. split; [by left|]. split; [done|].
      intros HR _. by specialize (Hfail HR).
    + split; [done|]. split; [by right|]. split; [done | done].
Qed.

(** ** Further properties of the matcher and of the agents *)

(** A successful match consumed a piece of the subject: its
    continuation ran at some offset [i'] not before [i], on what is left
    of the subject from there. *)
Lemma exec_span {A} (r : regex) :
  ∀ i s g (k : nat → str → spans → option A) a,
    exec r i s g k = Some a →
    ∃ i' g', k i' (drop (i' - i) s) g' = Some a
             ∧ (i ≤ i')%nat ∧ (i' - i ≤ length s)%nat.
Proof.
  assert (∀ (s : str) (i i1 i2 : nat),
            (i ≤ i1)%nat → (i1 ≤ i2)%nat →
            drop (i2 - i1) (drop (i1 - i) s) = drop (i2 - i) s) as Hdrop.
  { intros s i i1 i2 H1 H2. rewrite drop_drop. f_equal. lia. }
  induction r as [|p|r1 IH1 r2 IH2|r1 IH1 r2 IH2|greedy r1 IH1|n r1 IH1|r1 _| |];
    intros i s g k a H.
  - exists i, g. rewrite Nat.sub_diag. simpl in H. split; [done | lia].
  - simpl in H. destruct s as [|x s]; [done|]. destruct (p x); [|done].
    exists (S i), g. replace (S i - i)%nat with 1%nat by lia.
    split; [done|]. simpl. lia.
  - simpl in H. apply IH1 in H as (i1 & g1 & H & Hi1 & Hl1).
    apply IH2 in H as (i2 & g2 & H & Hi2 & Hl2).
    rewrite length_drop in Hl2. rewrite Hdrop in H by done.
    exists i2, g2. split; [done | lia].
  - simpl in H. destruct (exec r1 i s g k) as [a1|] eqn:E1; simpl in H.
    + inversion H; subst. by apply IH1 in E1.
    + by apply IH2 in H.
  - change (star_loop (exec r1) greedy k (S (length s)) i s g = Some a) in H.
    revert H. generalize (S (length s)). intros fuel. revert i s g a.
    induction fuel as [|fuel IHf]; intros i s g a H.
    { exists i, g. rewrite Nat.sub_diag. split; [done | lia]. }
    cbn [star_loop] in H.
    assert (∀ b, exec r1 i s g
                   (fun i' s' g' =>
                      if Nat.ltb i i' then star_loop (exec r1) greedy k fuel i' s' g'
                      else None) = Some b →
                 ∃ i' g', k i' (drop (i' - i) s) g' = Some b
                          ∧ (i ≤ i')%nat ∧ (i' - i ≤ length s)%nat) as Hagain.
    { intros b Hb. apply IH1 in Hb as (i1 & g1 & Hb & Hi1 & Hl1).
      destruct (Nat.ltb i i1); [|done].
      apply IHf in Hb as (i2 & g2 & Hb & Hi2 & Hl2).
      rewrite length_drop in Hl2. rewrite Hdrop in Hb by done.
      exists i2, g2. split; [done | lia]. }
    assert (∀ b, k i s g = Some b →
                 ∃ i' g', k i' (drop (i' - i) s) g' = Some b
                          ∧ (i ≤ i')%nat ∧ (i' - i ≤ length s)%nat) as Hstop.
    { intros b Hb. exists i, g. rewrite Nat.sub_diag. split; [done | lia]. }
    destruct greedy; cbn zeta in H.
    + match type of H with orelse ?x _ = _ => destruct x as [b|] eqn:E end; simpl in H.
      * inversion H; subst. by apply Hagain.
      * by apply Hstop.
    + destruct (k i s g) as [b|] eqn:E; simpl in H.
      * inversion H; subst. by apply Hstop.
      * by apply Hagain.
  - simpl in H. apply IH1 in H as (i1 & g1 & H & Hi1 & Hl1). eauto.
  - simpl in H. destruct (exec r1 i s g _) as [g'|]; [|done].
    exists i, g'. rewrite Nat.sub_diag. split; [done | lia].
  - simpl in H. destruct s; [|done].
    exists i, g. rewrite Nat.sub_diag. split; [done | lia].
  - simpl in H. exists i, g. rewrite Nat.sub_diag.
    destruct s as [|x [|y s]]; [split; [done | lia] | | done].
    destruct (x =? nl)%N; [split; [done | simpl; lia] | done].
Qed.

(** A match found from offset [i] of a text lies between [i] and the
    end of the text, and is a match at its own start. *)
Lemma search_from_span (r : regex) (text : str) (s : str) :
  ∀ i m, s = drop i text → (i ≤ length text)%nat →
    search_from r i s = Some m →
    (i ≤ m_start m)%nat ∧ (m_start m ≤ m_end m)%nat ∧ (m_end m ≤ length text)%nat
    ∧ matched r text m.
Proof.
  assert (∀ i m, (i ≤ length text)%nat →
            exec r i (drop i text) ∅ (fun e _ g => Some (Match i e g)) = Some m →
            (i ≤ m_start m)%nat ∧ (m_start m ≤ m_end m)%nat
            ∧ (m_end m ≤ length text)%nat ∧ matched r text m) as Hhere.
  { intros i m Hi E. pose proof E as E'.
    apply exec_span in E as (e & g & E & He & Hl). inversion E; subst m.
    rewrite length_drop in Hl. simpl. repeat split; [lia | lia | lia |].
    exact E'. }
  induction s as [|x s IH]; intros i m Hs Hi H; simpl in H.
  - destruct (exec r i [] ∅ _) as [m'|] eqn:E; [|done].
    inversion H; subst m'. rewrite Hs in E. by apply Hhere.
  - destruct (exec r i (x :: s) ∅ _) as [m'|] eqn:E.
    + inversion H; subst m'. rewrite Hs in E. by apply Hhere.
    + assert (text !! i = Some x) as Hx.
      { rewrite <- (Nat.add_0_r i), <- lookup_drop, <- Hs. done. }
      assert (s = drop (S i) text) as Hs'.
      { rewrite (drop_S _ _ _ Hx) in Hs. by inversion Hs. }
      apply lookup_lt_Some in Hx.
      destruct (IH (S i) m Hs' ltac:(lia) H) as (? & ? & ? & ?).
      repeat split; [lia | done | done | done].
Qed.

Lemma in_order_weaken i j n ms : (j ≤ i)%nat → in_order i n ms → in_order j n ms.
Proof. destruct ms as [|m ms]; simpl; [done|]. intros Hj (? & ? & ? & ?). repeat split; [lia | done..]. Qed.

(** The matches [finditer] lists are in the order of the text, do not
    overlap, lie within the text, and are matches at their starts. *)
Lemma finditer_from_in_order (r : regex) (text : str) (fuel : nat) :
  ∀ i, (i ≤ length text)%nat →
    in_order i (length text) (finditer_from fuel r i (drop i text))
    ∧ Forall (matched r text) (finditer_from fuel r i (drop i text)).
Proof.
  induction fuel as [|fuel IH]; intros i Hi; cbn [finditer_from]; [by split|].
  destruct (search_from r i (drop i text)) as [m|] eqn:E; [|by split].
  destruct (search_from_span r text _ i m eq_refl Hi E) as (H1 & H2 & H3 & H4).
  rewrite drop_drop. replace (i + (m_end m - i))%nat with (m_end m) by lia.
  destruct (Nat.ltb (m_start m) (m_end m)).
  - destruct (IH (m_end m) H3) as [Hord Hall].
    split; [simpl; by repeat split | by constructor].
  - destruct (drop (m_end m) text) as [|x rest] eqn:Hrest.
    + split; [simpl; by repeat split | by repeat constructor].
    + assert (text !! m_end m = Some x) as Hx.
      { rewrite <- (Nat.add_0_r (m_end m)), <- lookup_drop, Hrest. done. }
      assert (rest = drop (S (m_end m)) text) as ->.
      { rewrite (drop_S _ _ _ Hx) in Hrest. by inversion Hrest. }
      apply lookup_lt_Some in Hx.
      destruct (IH (S (m_end m)) ltac:(lia)) as [Hord Hall].
      split; [|by constructor].
      simpl. repeat split; [done..|]. eapply in_order_weaken; [|exact Hord]. lia.
Qed.

Lemma finditer_in_order (r : regex) (text : str) :
  in_order 0 (length text) (finditer r text) ∧ Forall (matched r text) (finditer r text).
Proof. apply (finditer_from_in_order r text (S (length text)) 0). lia. Qed.

(** *** Taking matches out of a text *)

Lemma cut_matches_fold (text : str) (ms : list rmatch) :
  ∀ found processed,
    cut_matches text ms found processed =
      (found ++ ((fun m => strip (group0 text m)) <$> ms),
       foldl (fun acc m => take (m_start m) acc ++ drop (m_end m) acc) processed ms).
Proof.
  induction ms as [|m ms IH]; intros found processed; cbn [cut_matches].
  - by rewrite app_nil_r.
  - rewrite IH. cbn [foldl fmap list_fmap]. by rewrite <- app_assoc.
Qed.

Lemma foldl_rev_foldr {A B} (f : B → A → B) (b : B) (l : list A) :
  foldl f b (rev l) = foldr (fun x acc => f acc x) b l.
Proof.
  induction l as [|x l IH]; [done|].
  simpl. by rewrite foldl_app, IH.
Qed.

Lemma fmap_rev {A B} (f : A → B) (l : list A) : f <$> rev l = rev (f <$> l).
Proof.
  induction l as [|x l IH]; [done|].
  simpl. by rewrite fmap_app, IH.
Qed.

(** Cutting matches that are in order from the last to the first
    leaves the text before offset [i] and, after it, the text between
    the matches. *)
Lemma cut_in_order (text : str) (ms : list rmatch) :
  ∀ i, in_order i (length text) ms →
    foldr (fun m acc => take (m_start m) acc ++ drop (m_end m) acc) text ms
    = take i text ++ sub_pieces (fun _ _ => []) text ms i.
Proof.
  induction ms as [|m ms IH]; intros i Hord; cbn [foldr sub_pieces].
  - by rewrite take_drop.
  - destruct Hord as (H1 & H2 & H3 & Hrest). rewrite (IH _ Hrest).
    rewrite take_app_le by (rewrite length_take; lia).
    rewrite take_take, Nat.min_l by lia.
    rewrite drop_app_length' by (rewrite length_take; lia).
    unfold slice. rewrite app_nil_l, app_assoc. f_equal.
    rewrite take_take_drop. f_equal. lia.
Qed.

Lemma sub_pieces_empty_length (text : str) (ms : list rmatch) :
  ∀ i, in_order i (length text) ms →
    (length (sub_pieces (fun _ _ => []) text ms i) ≤ length text - i)%nat.
Proof.
  induction ms as [|m ms IH]; intros i Hord; cbn [sub_pieces].
  - by rewrite length_drop.
  - destruct Hord as (H1 & H2 & H3 & Hrest). specialize (IH _ Hrest).
    unfold slice. rewrite app_nil_l, length_app, length_take, length_drop. lia.
Qed.

(** X10. The matches taken out of a text come back in the order of
    the text: the list [extract_all] returns holds, for each match that
    [re.finditer] lists and in the same order, the matched text without
    surrounding white space (the loop runs over the matches backwards
    and the list is reversed afterwards). What it leaves of the text is
    what [re.sub] with the empty replacement leaves: cutting from the
    last match to the first keeps the offsets of the earlier matches
    valid. The text never grows. *)
Theorem extract_all_is_ordered_removal (pattern : regex) (text : str) :
  (extract_all pattern text).1
  = (fun m => strip (group0 text m)) <$> finditer pattern text
  ∧ (extract_all pattern text).2 = sub pattern (fun _ _ => []) text
  ∧ (length (extract_all pattern text).2 ≤ length text)%nat.
Proof.
  unfold extract_all. rewrite cut_matches_fold. cbn [fst snd].
  destruct (finditer_in_order pattern text) as [Hord _].
  rewrite foldl_rev_foldr, (cut_in_order text _ 0 Hord).
  rewrite app_nil_l, fmap_rev, rev_involutive.
  split; [done|]. split; [done|].
  etransitivity; [apply (sub_pieces_empty_length text _ 0 Hord) | lia].
Qed.

(** *** The two substitutions of the LaTeX fallback *)

(** A literal text matches exactly itself. *)
Lemma exec_lit {A} (d : str) :
  ∀ i s g (k : nat → str → spans → option A) a,
    exec (lit d) i s g k = Some a →
    ∃ s1, s = d ++ s1 ∧ k (i + length d)%nat s1 g = Some a.
Proof.
  induction d as [|p d IH]; intros i s g k a H.
  - exists s. rewrite Nat.add_0_r. done.
  - change (lit (p :: d)) with (Seq (Chr (N.eqb p)) (lit d)) in H. cbn [exec] in H.
    destruct s as [|x s]; [done|].
    destruct (N.eqb_spec p x) as [->|]; [|done].
    apply IH in H as (s1 & -> & H). exists s1. split; [done|].
    rewrite <- H. f_equal. simpl. lia.
Qed.

(** A match of [d], a group, and [d] again reads as [d], the text of
    the group, and [d]. *)
Lemma delimited_match (d : str) (body : regex) (text : str) (m : rmatch) :
  matched (seqs [lit d; Group 1 body; lit d]) text m →
  d ++ group text m 1 ++ d = group0 text m.
Proof.
  destruct m as [st e gs]. unfold matched, group, group0, slice.
  cbn [m_start m_end m_groups]. intros H.
  change (seqs [lit d; Group 1 body; lit d])
    with (Seq (lit d) (Seq (Group 1 body) (Seq (lit d) Eps))) in H.
  cbn [exec] in H.
  apply exec_lit in H as (s1 & Hs & H).
  apply exec_span in H as (i' & g' & H & Hi' & Hl).
  apply exec_lit in H as (s2 & Hs1 & H).
  inversion H; subst e gs. clear H.
  unfold spans in *. rewrite lookup_insert_eq.
  set (a := (i' - (st + length d))%nat) in *.
  assert (drop (st + length d) text = s1) as ->
    by (by rewrite <- drop_drop, Hs, drop_app_length).
  rewrite Hs.
  rewrite take_app_ge by lia.
  replace (i' + length d - st - length d)%nat with (a + length d)%nat by lia.
  f_equal.
  rewrite <- (take_drop a s1) at 2. rewrite Hs1.
  rewrite take_app_ge by (rewrite length_take; lia).
  rewrite length_take, Nat.min_l by lia.
  replace (a + length d - a)%nat with (length d) by lia.
  by rewrite take_app_length.
Qed.

(** Replacing matches that are in order by their own text gives the
    subject back. *)
Lemma sub_pieces_same repl (text : str) (ms : list rmatch) :
  ∀ i, in_order i (length text) ms →
    Forall (fun m => repl text m = group0 text m) ms →
    sub_pieces repl text ms i = drop i text.
Proof.
  induction ms as [|m ms IH]; intros i Hord Hall; cbn [sub_pieces]; [done|].
  destruct Hord as (H1 & H2 & H3 & Hrest).
  apply Forall_cons in Hall as [Hm Hall].
  rewrite Hm, (IH _ Hrest Hall). unfold group0, slice. symmetry.
  rewrite <- (take_drop (m_start m - i) (drop i text)) at 1.
  f_equal. rewrite drop_drop.
  replace (i + (m_start m - i))%nat with (m_start m) by lia.
  rewrite <- (take_drop (m_end m - m_start m) (drop (m_start m) text)) at 1.
  f_equal. rewrite drop_drop. f_equal. lia.
Qed.

Lemma sub_delimited_same (d : str) (body : regex) (text : str) :
  sub (seqs [lit d; Group 1 body; lit d])
    (fun text m => d ++ group text m 1 ++ d) text = text.
Proof.
  unfold sub.
  destruct (finditer_in_order (seqs [lit d; Group 1 body; lit d]) text) as [Hord Hall].
  rewrite (sub_pieces_same _ text _ 0 Hord); [done|].
  eapply Forall_impl; [exact Hall|]. intros m Hm.
  by apply (delimited_match d body).
Qed.

Lemma latex_fallback_text (text : str) :
  sub block_math block_template (sub inline_math inline_template text) = text
  ∧ sub inline_math inline_template text = text.
Proof.
  assert (sub inline_math inline_template text = text) as Hinline
    by apply (sub_delimited_same (py "$") (plus false notdollar)).
  split; [|done]. rewrite Hinline.
  apply (sub_delimited_same (py "$$") (plus false notdollar)).
Qed.

(** X11. The regular-expression fallback of the LaTeX step changes
    nothing: on every text, rewriting each [$...$] as [$\1$] and then
    each [$$...$$] as [$$\1$$] gives the text back, since each match is
    replaced by its own text. *)
Theorem latex_fallback_is_identity (structured_content : str) :
  sub inline_math inline_template structured_content = structured_content
  ∧ sub block_math block_template structured_content = structured_content
  ∧ sub block_math block_template
      (sub inline_math inline_template structured_content) = structured_content.
Proof.
  assert (∀ text, sub inline_math inline_template text = text) as Hinline
    by (intros text; apply (sub_delimited_same (py "$") (plus false notdollar))).
  assert (∀ text, sub block_math block_template text = text) as Hblock
    by (intros text; apply (sub_delimited_same (py "$$") (plus false notdollar))).
  split; [apply Hinline|]. split; [apply Hblock|].
  by rewrite Hinline, Hblock.
Qed.

(** *** LatexExpertAgent *)

(** X12. [LatexExpertAgent.process] never raises, and the flag it
    returns is the math flag it was given. Without the flag it returns
    the text as it is and sends no request. With the flag the text it
    returns ends with the math notice; before the notice stands the
    non-empty answer of the remote service or, when no request
    succeeds, the structured text itself, unchanged. *)
Theorem latex_expert_outcomes
    (R : remote) (self : EnhancedAgent) (structured : structured_data) (w : world) :
  ∃ text w',
    LatexExpertAgent_process R self structured w
    = (Ok (Latex text (has_math structured)), w')
    ∧ (has_math structured = false → text = structured_content structured ∧ w' = w)
    ∧ (has_math structured = true →
       ∃ body, text = body ++ math_notice
         ∧ (body = structured_content structured
            ∨ body ≠ [] ∧ ∃ i rq, R i rq = Some body))
    ∧ (has_math structured = true → always_fails R →
       text = structured_content structured ++ math_notice).
Proof.
  destruct structured as [sc flag]. unfold LatexExpertAgent_process.
  cbn [structured_content has_math]. destruct flag.
  - unfold bind at 1 2. unfold try_except.
    destruct (process_with_gemini_cases R self (latex_request ++ sc ++ latex_request_end) w)
      as [[w' Hfail] | (answer & w' & i & rq & Hok & Hne & HR)].
    + rewrite Hfail. unfold ret.
      destruct (latex_fallback_text sc) as [-> _].
      exists (sc ++ math_notice), w'. split; [reflexivity|]. split; [done|].
      split; [intros _; exists sc; by split; [|left] | done].
    + rewrite Hok. unfold ret.
      exists (answer ++ math_notice), w'. split; [reflexivity|]. split; [done|].
      split.
      * intros _. exists answer. split; [done|]. right. eauto.
      * intros _ Hfail. by rewrite Hfail in HR.
  - exists sc, w. split; [reflexivity|]. split; [done|]. split; done.
Qed.

(** *** TranscriberExtractorAgent *)

Lemma lstrip_head (s : str) :
  match lstrip s with [] => True | c :: _ => isspace c = false end.
Proof.
  induction s as [|x s IH]; cbn [lstrip]; [exact I|].
  destruct (isspace x) eqn:E; [exact IH | exact E].
Qed.

Lemma last_rev {A} (l : list A) : last (rev l) = head l.
Proof. destruct l as [|x l]; [reflexivity|]. cbn [rev]. by rewrite last_snoc. Qed.

Lemma lstrip_snoc (c : char) (l : str) :
  isspace c = false → ∃ l', lstrip (l ++ [c]) = l' ++ [c].
Proof.
  intros Hc. induction l as [|x l IH]; cbn [app lstrip].
  - rewrite Hc. by exists [].
  - destruct (isspace x); [exact IH | by exists (x :: l)].
Qed.

Lemma rstrip_head (c : char) (t : str) :
  isspace c = false → ∃ t', rstrip (c :: t) = c :: t'.
Proof.
  intros Hc. unfold rstrip. cbn [rev].
  destruct (lstrip_snoc c (rev t) Hc) as [l' ->].
  rewrite rev_app_distr. by exists (rev l').
Qed.

Lemma rstrip_last (s : str) :
  match last (rstrip s) with Some c => isspace c = false | None => True end.
Proof.
  unfold rstrip. rewrite last_rev.
  pose proof (lstrip_head (rev s)) as H.
  destruct (lstrip (rev s)); [exact I | exact H].
Qed.

(** What [strip] returns has no white space at either end. *)
Lemma strip_trimmed (s : str) : trimmed (strip s).
Proof.
  unfold strip, trimmed. split; [|apply rstrip_last].
  pose proof (lstrip_head s) as H.
  destruct (lstrip s) as [|c t]; [exact I|].
  by destruct (rstrip_head c t H) as [t' ->].
Qed.

Lemma last_app_cons {A} (l1 : list A) (x : A) (l2 : list A) :
  last (l1 ++ x :: l2) = last (x :: l2).
Proof.
  induction l1 as [|y l1 IH]; [reflexivity|].
  cbn [app]. rewrite <- IH. by destruct l1.
Qed.

Lemma ai_bizu_trimmed (found : list str) (bizu : str) :
  ai_bizu found bizu → trimmed bizu.
Proof.
  intros (line & -> & Hne & _).
  pose proof (strip_trimmed line) as [_ Hlast].
  destruct (strip line) as [|c t]; [done|].
  assert (∃ p, py "Bizu: " = 66%N :: p) as [p ->] by (eexists; vm_compute; reflexivity).
  split; [vm_compute; reflexivity|].
  by rewrite last_app_cons.
Qed.

(** The loop over the lines of a remote answer only appends, and what
    it appends are new bizus. *)
Lemma add_lines_appends (found : list str) (answer_lines : list str) :
  ∀ added0,
    Forall (ai_bizu found) added0 →
    ∃ added,
      foldl (fun bizus line =>
               if truthy (strip line)
                  && negb (bool_decide (strip line ∈ map strip bizus))
               then bizus ++ [py "Bizu: " ++ strip line]
               else bizus)
        (found ++ added0) answer_lines
      = found ++ added
      ∧ Forall (ai_bizu found) added.
Proof.
  induction answer_lines as [|line rest IH]; intros added0 Hadded0; cbn [foldl].
  - by exists added0.
  - destruct (truthy (strip line)) eqn:Htruthy; cbn [andb]; [|by apply IH].
    destruct (bool_decide (strip line ∈ map strip (found ++ added0))) eqn:Hin;
      cbn [negb]; [by apply IH|].
    rewrite <- app_assoc. apply IH.
    apply Forall_app. split; [exact Hadded0|].
    apply Forall_singleton. exists line. split; [reflexivity|]. split.
    + intros Hnil. by rewrite Hnil in Htruthy.
    + apply bool_decide_eq_false in Hin. intros Hfound. apply Hin.
      rewrite map_app. apply elem_of_app. by left.
Qed.

Lemma add_ai_bizus_appends (found : list str) (ai_bizus : str) :
  ∃ added, add_ai_bizus found ai_bizus = found ++ added ∧ Forall (ai_bizu found) added.
Proof.
  unfold add_ai_bizus.
  destruct (truthy ai_bizus && truthy (strip ai_bizus)).
  - pose proof (add_lines_appends found (split nl (strip ai_bizus)) []) as H.
    rewrite app_nil_r in H. apply H. constructor.
  - exists []. by rewrite app_nil_r.
Qed.

(** One run of the extractor, given what the two extraction passes
    yield: it returns, and the bizus are those of the pattern followed
    by those of the remote answer, if any. *)
Lemma extractor_cases R self content w found1 rest1 found2 rest2 :
  extract_all bizu_pattern (remove_boilerplate content) = (found1, rest1) →
  extract_all question_pattern rest1 = (found2, rest2) →
  ∃ added w',
    TranscriberExtractorAgent_process R self content w
    = (Ok (Extracted (strip rest2) (found1 ++ added) found2), w')
    ∧ Forall (ai_bizu found1) added
    ∧ ((length rest1 ≤ 1000)%nat → added = [] ∧ w' = w)
    ∧ (always_fails R → added = []).
Proof.
  intros Hbizus Hquestions.
  unfold TranscriberExtractorAgent_process. rewrite Hbizus. unfold bind.
  destruct (Nat.ltb 1000 (length rest1)) eqn:Hlong.
  - apply Nat.ltb_lt in Hlong. unfold try_except, bind.
    destruct (process_with_gemini_cases R self (bizus_request ++ rest1) w)
      as [[w' Hfail] | (text & w' & i & rq & Hok & Hne & HR)].
    + rewrite Hfail. unfold ret. rewrite Hquestions.
      exists [], w'. rewrite app_nil_r. split; [reflexivity|].
      split; [constructor|]. split; [lia | done].
    + rewrite Hok. unfold ret. rewrite Hquestions.
      destruct (add_ai_bizus_appends found1 text) as (added & -> & Hadded).
      exists added, w'. split; [reflexivity|]. split; [exact Hadded|].
      split; [lia|]. intros Hfail. rewrite Hfail in HR. discriminate HR.
  - unfold ret. rewrite Hquestions.
    exists [], w. rewrite app_nil_r. split; [reflexivity|].
    split; [constructor|]. split; done.
Qed.

Lemma extractor_result R self content w :
  ∃ added w',
    TranscriberExtractorAgent_process R self content w
    = (Ok (Extracted (extracted_main_content content)
             (extracted_bizus content ++ added)
             (extracted_questions content)), w')
    ∧ Forall (ai_bizu (extracted_bizus content)) added
    ∧ ((length (without_bizus content) ≤ 1000)%nat → added = [] ∧ w' = w)
    ∧ (always_fails R → added = []).
Proof.
  apply (extractor_cases R self content w
           (extracted_bizus content) (without_bizus content)
           (extracted_questions content)
           (extract_all question_pattern (without_bizus content)).2).
  - unfold extracted_bizus, without_bizus. apply surjective_pairing.
  - unfold extracted_questions. apply surjective_pairing.
Qed.


Lemma extract_all_found (pattern : regex) (text : str) :
  (extract_all pattern text).1
  = (fun m => strip (group0 text m)) <$> finditer pattern text.
Proof.
  unfold extract_all. rewrite cut_matches_fold. cbn [fst].
  by rewrite app_nil_l, fmap_rev, rev_involutive.
Qed.

Lemma extract_all_trimmed (pattern : regex) (text : str) :
  Forall trimmed (extract_all pattern text).1.
Proof.
  rewrite extract_all_found. apply Forall_fmap, Forall_forall.
  intros m _. apply strip_trimmed.
Qed.

(** X14. No text the extractor returns has white space at either
    end: not the main content, not a question, and not a bizu, whether
    the pattern found it or a remote answer gave it. *)
Theorem extractor_texts_are_trimmed
    (R : remote) (self : EnhancedAgent) (content : str) (w : world) :
  ∃ extracted w',
    TranscriberExtractorAgent_process R self content w = (Ok extracted, w')
    ∧ trimmed (main_content extracted)
    ∧ Forall trimmed (bizus extracted)
    ∧ Forall trimmed (questions extracted).
Proof.
  destruct (extractor_result R self content w) as (added & w' & Hrun & Hadded & _).
  eexists _, w'. split; [exact Hrun|].
  cbn [main_content bizus questions].
  split; [apply strip_trimmed|]. split; [|apply extract_all_trimmed].
  apply Forall_app. split; [apply extract_all_trimmed|].
  eapply Forall_impl; [exact Hadded|]. apply ai_bizu_trimmed.
Qed.

(** *** StructurerVisualizerAgent *)

(** The main-content section when the remote service is not asked or
    does not answer: the heading and the text as it is. *)
Lemma main_section_verbatim R self main_content sc w :
  main_content ≠ [] →
  (length main_content ≤ 500)%nat ∨ always_fails R →
  ∃ w',
    main_section R self main_content sc w
    = (Ok ((sc ++ py "## Conteúdo Principal" ++ [nl; nl]) ++ main_content ++ [nl; nl]), w').
Proof.
  intros Hne Hcase. unfold main_section.
  destruct main_content as [|c t]; [done|]. cbn [truthy].
  destruct (Nat.ltb 500 (length (c :: t))) eqn:Hlong; [|by exists w].
  apply Nat.ltb_lt in Hlong. destruct Hcase as [Hshort | HR]; [lia|].
  unfold try_except, bind.
  destruct (process_with_gemini_fails R self
              (structure_request ++ (c :: t) ++ structure_request_end) w HR)
    as [w' ->].
  by exists w'.
Qed.

(** The sections after the first only add text. *)
Lemma structurer_run R self extracted w sc1 w1 :
  main_section R self (main_content extracted)
    (py "# Conteúdo Estruturado" ++ [nl; nl]) w = (Ok sc1, w1) →
  ∃ text w',
    StructurerVisualizerAgent_process R self extracted w
    = (Ok (Structured text (mentions_math (main_content extracted))), w')
    ∧ sc1 `prefix_of` text.
Proof.
  intros Hmain. unfold StructurerVisualizerAgent_process.
  destruct (questions_section_extends R self (questions extracted)
              (bizus_section (bizus extracted) sc1) w1)
    as (sc2 & w2 & Hquestions & Hpre2).
  destruct (diagram_section_extends R self (main_content extracted) sc2 w2)
    as (sc3 & w3 & Hdiagram & Hpre3).
  exists sc3, w3. split.
  - unfold bind. rewrite Hmain, Hquestions, Hdiagram. reflexivity.
  - etransitivity; [apply bizus_section_extends|].
    etransitivity; [exact Hpre2 | exact Hpre3].
Qed.

(** X15. [StructurerVisualizerAgent.process] never raises, whatever
    the remote service does. The math flag it returns is computed from
    the main content alone, and the text it returns begins with the
    title line. A main content that is not empty and has at most 500
    characters, or any non-empty main content when no request succeeds,
    stands in the text unchanged, right after the title and the heading
    of the main section. *)
Theorem structurer_outcomes
    (R : remote) (self : EnhancedAgent) (extracted : extracted_data) (w : world) :
  ∃ text w',
    StructurerVisualizerAgent_process R self extracted w
    = (Ok (Structured text (mentions_math (main_content extracted))), w')
    ∧ (py "# Conteúdo Estruturado" ++ [nl; nl]) `prefix_of` text
    ∧ (main_content extracted ≠ [] →
       (length (main_content extracted) ≤ 500)%nat ∨ always_fails R →
       (((py "# Conteúdo Estruturado" ++ [nl; nl])
          ++ py "## Conteúdo Principal" ++ [nl; nl])
          ++ main_content extracted ++ [nl; nl]) `prefix_of` text).
Proof.
  destruct (main_section_extends R self (main_content extracted)
              (py "# Conteúdo Estruturado" ++ [nl; nl]) w)
    as (sc1 & w1 & Hmain & Hpre1).
  destruct (structurer_run R self extracted w sc1 w1 Hmain)
    as (text & w' & Hrun & Hpre).
  exists text, w'. split; [exact Hrun|]. split.
  - etransitivity; [exact Hpre1 | exact Hpre].
  - intros Hne Hcase.
    destruct (main_section_verbatim R self (main_content extracted)
                (py "# Conteúdo Estruturado" ++ [nl; nl]) w Hne Hcase)
      as [w1' Hverbatim].
    rewrite Hverbatim in Hmain. inversion Hmain; subst sc1. exact Hpre.
Qed.

(** *** ObsidianFormatterAgent *)

Lemma add_metadata_cases time final_content w :
  add_metadata time final_content w
  = (if startswith final_content (py "---") then Ok final_content
     else match time with
          | Some today => Ok (metadata today ++ final_content)
          | None => Raise NameError
          end, w).
Proof.
  unfold add_metadata.
  destruct (startswith final_content (py "---")); [reflexivity|].
  destruct time; reflexivity.
Qed.

Lemma metadata_headed today final_content :
  startswith (metadata today ++ final_content) (py "---") = true.
Proof. apply startswith_app_l. unfold metadata. apply startswith_self_app. Qed.

Lemma formatter_cases R time self latex w :
  ∃ text w',
    final_review R self latex w = (Ok text, w')
    ∧ ObsidianFormatterAgent_process R time self latex w
      = (if startswith text (py "---") then Ok text
         else match time with
              | Some today => Ok (metadata today ++ text)
              | None => Raise NameError
              end, w').
Proof.
  destruct (final_review_cases R self latex w) as (text & w' & Hrev & _).
  exists text, w'. split; [exact Hrev|].
  unfold ObsidianFormatterAgent_process, bind. rewrite Hrev.
  apply add_metadata_cases.
Qed.


(** *** process_content_with_enhanced_agents *)

Lemma latex_expert_returns R self structured w :
  ∃ text w',
    LatexExpertAgent_process R self structured w
    = (Ok (Latex text (has_math structured)), w').
Proof.
  unfold LatexExpertAgent_process. destruct (has_math structured).
  - unfold bind at 1 2. unfold try_except.
    destruct (process_with_gemini_cases R self
                (latex_request ++ structured_content structured ++ latex_request_end) w)
      as [[w' ->] | (answer & w' & _ & _ & -> & _)]; eexists _, w'; reflexivity.
  - eexists _, w. reflexivity.
Qed.

(** The four agents in a row: the first three always return, so the
    outcome is that of the formatter. *)
Lemma agents_outcome R time raw_content transcriber structurer latex_expert formatter w :
  ∃ text w',
    (let* extracted := TranscriberExtractorAgent_process R transcriber raw_content in
     let* structured := StructurerVisualizerAgent_process R structurer extracted in
     let* latex := LatexExpertAgent_process R latex_expert structured in
     ObsidianFormatterAgent_process R time formatter latex) w
    = (if startswith text (py "---") then Ok text
       else match time with
            | Some today => Ok (metadata today ++ text)
            | None => Raise NameError
            end, w').
Proof.
  destruct (extractor_returns R transcriber raw_content w) as (found & w1 & H1).
  destruct (structurer_returns R structurer (extracted_main_content raw_content) found
              (extracted_questions raw_content) w1) as (rest & w2 & H2).
  destruct (latex_expert_returns R latex_expert
              (Structured (35%N :: rest)
                 (mentions_math (extracted_main_content raw_content))) w2)
    as (body & w3 & H3).
  destruct (formatter_cases R time formatter
              (Latex body (mentions_math (extracted_main_content raw_content))) w3)
    as (text & w4 & _ & H4).
  exists text, w4. unfold bind. rewrite H1, H2, H3. exact H4.
Qed.

(** X17. What [process_content_with_enhanced_agents] can do. With an
    empty list of credentials it raises [ValueError] before any agent
    runs. With a non-empty list it returns a note that begins with
    [---], or raises [NameError]; it raises only when the name [time]
    is unbound, so when the file runs as a script it always returns a
    note. No failure of the remote service reaches the caller. *)
Theorem pipeline_outcomes
    (R : remote) (time : clock) (raw_content : str) (api_keys : list str)
    (model_names : option (gmap str str)) :
  match process_content_with_enhanced_agents R time raw_content api_keys model_names with
  | (Ok final_note, Some _) =>
      api_keys ≠ [] ∧ startswith final_note (py "---") = true
  | (Raise e, Some _) => api_keys ≠ [] ∧ e = NameError ∧ time = None
  | (Raise e, None) => api_keys = [] ∧ e = ValueError
  | (Ok _, None) => False
  end.
Proof.
  unfold process_content_with_enhanced_agents.
  destruct api_keys as [|key keys]; [done|]. cbn [__init__].
  unfold run_agents.
  match goal with
  | |- context [(bind ?c ?f) ?w0] =>
      destruct (agents_outcome R time raw_content
                  (TranscriberExtractorAgent
                     (default default_model_names model_names
                        !! py "TranscriberExtractorAgent"))
                  (StructurerVisualizerAgent
                     (default default_model_names model_names
                        !! py "StructurerVisualizerAgent"))
                  (LatexExpertAgent
                     (default default_model_names model_names !! py "LatexExpertAgent"))
                  (ObsidianFormatterAgent
                     (default default_model_names model_names
                        !! py "ObsidianFormatterAgent"))
                  w0) as (text & w' & Hrun)
  end.
  rewrite Hrun.
  destruct (startswith text (py "---")) eqn:Hhead; [done|].
  destruct time as [today|]; [|done].
  split; [done | apply metadata_headed].
Qed.

(** *** The requests of a run *)

Lemma client_steps_are_steps m m' : rtc client_step m m' → rtc step m m'.
Proof.
  induction 1 as [m|m m1 m2 Hstep _ IH]; [constructor|].
  eapply rtc_l; [by apply client_step_is_step | exact IH].
Qed.

Lemma spends_refl k w : spends k w w.
Proof.
  split; [constructor|]. exists []. rewrite app_nil_r.
  split; [reflexivity|]. split; [simpl; lia | constructor].
Qed.

Lemma spends_trans k1 k2 w w1 w2 :
  spends k1 w w1 → spends k2 w1 w2 → spends (k1 + k2) w w2.
Proof.
  intros (Hs1 & new1 & E1 & L1 & F1) (Hs2 & new2 & E2 & L2 & F2).
  destruct (steps_constants _ _ (client_steps_are_steps _ _ Hs1)) as [Hkeys _].
  rewrite Hkeys in L2, F2.
  split; [by etransitivity|]. exists (new1 ++ new2).
  rewrite E2, E1, app_assoc. split; [reflexivity|].
  split; [rewrite length_app; nia | by apply Forall_app].
Qed.

Lemma spends_mono k k' w w' : (k ≤ k')%nat → spends k w w' → spends k' w w'.
Proof.
  intros Hk (Hs & new & E & L & F). split; [exact Hs|].
  exists new. split; [exact E|]. split; [nia | exact F].
Qed.

Lemma bind_spends {A B} k1 k2 (c : M A) (f : A → M B) w :
  spends k1 w (c w).2 →
  (∀ a, (c w).1 = Ok a → spends k2 (c w).2 (f a (c w).2).2) →
  spends (k1 + k2) w (bind c f w).2.
Proof.
  unfold bind. destruct (c w) as [[a|e] w1]; cbn [fst snd]; intros H1 H2.
  - eapply spends_trans; [exact H1 | by apply H2].
  - eapply spends_mono; [|exact H1]. lia.
Qed.

Lemma costs_ret {A} (a : A) : costs 0 (ret a).
Proof. intros w. apply spends_refl. Qed.

Lemma costs_raise {A} (e : exn) : costs 0 (@raise A e).
Proof. intros w. apply spends_refl. Qed.

Lemma costs_mono {A} k k' (c : M A) : (k ≤ k')%nat → costs k c → costs k' c.
Proof. intros Hk Hc w. eapply spends_mono; [exact Hk | apply Hc]. Qed.

Lemma costs_bind {A B} k1 k2 (c : M A) (f : A → M B) :
  costs k1 c → (∀ a, costs k2 (f a)) → costs (k1 + k2) (bind c f).
Proof. intros Hc Hf w. apply bind_spends; [apply Hc | intros a _; apply Hf]. Qed.

Lemma costs_try_except {A} k1 k2 (c : M A) (h : exn → M A) :
  costs k1 c → (∀ e, costs k2 (h e)) → costs (k1 + k2) (try_except c h).
Proof.
  intros Hc Hh w. specialize (Hc w). unfold try_except.
  destruct (c w) as [[a|e] w1]; cbn [snd] in *.
  - eapply spends_mono; [|exact Hc]. lia.
  - eapply spends_trans; [exact Hc | apply Hh].
Qed.

(** One call of [process_with_gemini] is one run of the fallback loop. *)
Lemma costs_process_with_gemini R self content_to_process :
  costs 1 (process_with_gemini R self content_to_process).
Proof.
  intros w.
  assert ((process_with_gemini R self content_to_process w).2
          = (generate_content_with_fallback R
               (prompt self ++ conteudo_a_ser_processado ++ content_to_process)
               (model_name self) None w).2) as ->.
  { unfold process_with_gemini.
    destruct (generate_content_with_fallback _ _ _ _ _) as [[response|] w'];
      [destruct (truthy response)|]; reflexivity. }
  split; [apply rtc_once, client_generate|].
  unfold generate_content_with_fallback. rewrite Nat2Z.id.
  destruct (attempts_trace R (length (api_keys (manager w)))
              (prompt self ++ conteudo_a_ser_processado ++ content_to_process)
              (model_name self) w) as (new & E & L & F & _).
  exists new. split; [exact E|]. split; [lia|].
  eapply Forall_impl; [exact F|]. intros rq (_ & _ & Hin & Hne). by split.
Qed.

Lemma costs_asking {A} R self content_to_process (f : str → A) (a : A) :
  costs 1 (try_except
             (let* answer := process_with_gemini R self content_to_process in
              ret (f answer))
             (fun _ => ret a)).
Proof.
  apply (costs_try_except 1 0); [|intros _; apply costs_ret].
  apply (costs_bind 1 0); [apply costs_process_with_gemini | intros; apply costs_ret].
Qed.

Lemma costs_extractor R self content :
  costs 1 (TranscriberExtractorAgent_process R self content).
Proof.
  unfold TranscriberExtractorAgent_process.
  destruct (extract_all bizu_pattern (remove_boilerplate content)) as [found1 rest1].
  apply (costs_bind 1 0).
  - destruct (Nat.ltb 1000 (length rest1)).
    + apply costs_asking.
    + apply (costs_mono 0); [lia | apply costs_ret].
  - intros found. destruct (extract_all question_pattern rest1). apply costs_ret.
Qed.

Lemma costs_main_section R self main_content sc :
  costs 1 (main_section R self main_content sc).
Proof.
  unfold main_section.
  destruct (truthy main_content); [destruct (Nat.ltb 500 (length main_content))|].
  - apply costs_asking.
  - apply (costs_mono 0); [lia | apply costs_ret].
  - apply (costs_mono 0); [lia | apply costs_ret].
Qed.

Lemma costs_format_questions R self questions :
  ∀ i sc, costs (length questions) (format_questions R self i questions sc).
Proof.
  induction questions as [|question_text rest IH]; intros i sc;
    cbn [format_questions length]; [apply costs_ret|].
  apply (costs_bind 1 (length rest)); [apply costs_asking | intros sc'; apply IH].
Qed.

Lemma costs_questions_section R self questions sc :
  costs (length questions) (questions_section R self questions sc).
Proof.
  unfold questions_section. destruct questions as [|q qs]; [apply costs_ret|].
  apply costs_format_questions.
Qed.

Lemma costs_diagram_section R self main_content sc :
  costs 1 (diagram_section R self main_content sc).
Proof.
  unfold diagram_section.
  apply (costs_try_except 1 0); [|intros _; apply costs_ret].
  apply (costs_bind 1 0); [apply costs_process_with_gemini|].
  intros suggestion. destruct (_ && _); apply costs_ret.
Qed.

Lemma costs_structurer R self extracted :
  costs (2 + length (questions extracted))
    (StructurerVisualizerAgent_process R self extracted).
Proof.
  unfold StructurerVisualizerAgent_process.
  apply (costs_mono (1 + (length (questions extracted) + (1 + 0)))); [lia|].
  apply costs_bind; [apply costs_main_section | intros sc1].
  apply costs_bind; [apply costs_questions_section | intros sc2].
  apply costs_bind; [apply costs_diagram_section | intros sc3].
  apply costs_ret.
Qed.

Lemma costs_latex_expert R self structured :
  costs 1 (LatexExpertAgent_process R self structured).
Proof.
  unfold LatexExpertAgent_process.
  apply (costs_bind 1 0); [|intros; apply costs_ret].
  destruct (has_math structured).
  - apply (costs_bind 1 0); [|intros; apply costs_ret].
    apply (costs_try_except 1 0);
      [apply costs_process_with_gemini | intros _; apply costs_ret].
  - apply (costs_mono 0); [lia | apply costs_ret].
Qed.

Lemma costs_formatter R time self latex :
  costs 1 (ObsidianFormatterAgent_process R time self latex).
Proof.
  unfold ObsidianFormatterAgent_process. apply (costs_bind 1 0).
  - unfold final_review.
    apply (costs_try_except 1 0); [apply costs_process_with_gemini|].
    intros _. destruct (_ && _); apply costs_ret.
  - intros final_content. unfold add_metadata.
    destruct (negb _); [|apply costs_ret].
    apply (costs_bind 0 0); [|intros; apply costs_ret].
    destruct time; [apply costs_ret | apply costs_raise].
Qed.

Lemma costs_after_extractor R time structurer latex_expert formatter extracted :
  costs (4 + length (questions extracted))
    (let* structured := StructurerVisualizerAgent_process R structurer extracted in
     let* latex := LatexExpertAgent_process R latex_expert structured in
     ObsidianFormatterAgent_process R time formatter latex).
Proof.
  apply (costs_mono ((2 + length (questions extracted)) + (1 + 1))); [lia|].
  apply costs_bind; [apply costs_structurer | intros structured].
  apply costs_bind; [apply costs_latex_expert | intros latex].
  apply costs_formatter.
Qed.

(** The four agents in a row send at most one round of requests for
    each of the bizus, the structure, the diagram, the LaTeX and the
    review, and one for each question. *)
Lemma agents_spend R time raw_content transcriber structurer latex_expert formatter w :
  spends (5 + length (extracted_questions raw_content)) w
    ((let* extracted := TranscriberExtractorAgent_process R transcriber raw_content in
      let* structured := StructurerVisualizerAgent_process R structurer extracted in
      let* latex := LatexExpertAgent_process R latex_expert structured in
      ObsidianFormatterAgent_process R time formatter latex) w).2.
Proof.
  destruct (extractor_returns R transcriber raw_content w) as (found & w1 & Hrun).
  pose proof (costs_extractor R transcriber raw_content w) as Hfirst.
  unfold bind at 1. rewrite Hrun in Hfirst |- *. cbn [snd] in Hfirst. clear Hrun.
  generalize (extracted_main_content raw_content), (extracted_questions raw_content).
  intros main_content questions.
  eapply spends_mono;
    [|eapply spends_trans;
        [exact Hfirst
        |apply (costs_after_extractor R time structurer latex_expert formatter
                  (Extracted main_content found questions))]].
  cbn [Agents.questions]. lia.
Qed.

Lemma run_agents_spends R time raw_content model_names w :
  spends (5 + length (extracted_questions raw_content)) w
    (run_agents R time raw_content model_names w).2.
Proof. unfold run_agents. apply agents_spend. Qed.

(** X18. A bound on the remote requests of one run of
    [process_content_with_enhanced_agents]: with [n] credentials and
    [q] questions extracted from the text, at most [(5 + q) * n]
    requests are sent, and each of them is made with a non-empty
    credential of the list that was passed in. *)
Theorem pipeline_request_budget
    (R : remote) (time : clock) (raw_content : str) (api_keys : list str)
    (model_names : option (gmap str str)) :
  match (process_content_with_enhanced_agents R time raw_content api_keys
           model_names).2 with
  | Some w =>
      (length (sent w)
       ≤ (5 + length (extracted_questions raw_content)) * length api_keys)%nat
      ∧ Forall (fun rq => rq_key rq ∈ api_keys ∧ rq_key rq ≠ []) (sent w)
  | None => api_keys = []
  end.
Proof.
  unfold process_content_with_enhanced_agents.
  destruct api_keys as [|key keys]; [reflexivity|]. cbn [__init__].
  match goal with
  | |- context [run_agents R time raw_content ?names ?w0] =>
      pose proof (run_agents_spends R time raw_content names w0)
        as (_ & new & E & L & F);
      destruct (run_agents R time raw_content names w0) as [final_note w]
  end.
  cbn [snd manager sent ApiManager.api_keys app] in *.
  rewrite E. split; [exact L | exact F].
Qed.

(** X19. One run of [process_content_with_enhanced_agents] leaves the
    manager it built in a sound state: the list of credentials is the
    one passed in, the threshold is 3, every failure counter is between
    0 and 3, and the quarantined credentials are exactly those whose
    counter is 3. *)
Theorem pipeline_keeps_the_pool_sound
    (R : remote) (time : clock) (raw_content : str) (api_keys : list str)
    (model_names : option (gmap str str)) :
  match (process_content_with_enhanced_agents R time raw_content api_keys
           model_names).2 with
  | Some w =>
      ApiManager.api_keys (manager w) = api_keys
      ∧ max_retries (manager w) = 3
      ∧ ∀ key,
          0 ≤ failures (manager w) key ≤ 3
          ∧ (key ∈ failed_keys (manager w) ↔ failures (manager w) key = 3)
  | None => api_keys = []
  end.
Proof.
  unfold process_content_with_enhanced_agents.
  destruct api_keys as [|key keys]; [reflexivity|]. cbn [__init__].
  match goal with
  | |- context [run_agents R time raw_content ?names ?w0] =>
      pose proof (run_agents_spends R time raw_content names w0) as (Hsteps & _);
      destruct (run_agents R time raw_content names w0) as [final_note w]
  end.
  cbn [snd manager] in *.
  destruct (well_counted_steps _ _ Hsteps
              (well_counted_empty (key :: keys) 0 3 1 ltac:(lia)))
    as [(_ & Hcounted & Hpos) Hall].
  destruct (steps_constants _ _ Hall) as [Hkeys Hmax].
  cbn [ApiManager.api_keys max_retries] in Hkeys, Hmax.
  split; [exact Hkeys|]. split; [exact Hmax|].
  intros k. destruct (Hcounted k) as [Hle Hiff]. specialize (Hpos k).
  rewrite Hmax in Hle, Hiff. split; [lia|].
  rewrite Hiff. lia.
Qed.

(** *** The extractor adds no text *)











(** *** The bizu callouts of the structurer *)


